(** * game1: frame-based character animation

    A shallow embedding of the animation logic of the repository:

    - [Player]          the animation selector of [src/Player.js];
    - [SpriteGenerator] the procedural frame generator of
                        [src/SpriteGenerator.js];
    - [GameScene]       the second driver of the generator, [GameScene.js];
    - [SpriteConfig]    the clip table of [src/SpriteEditorConfig.js];
    - [PlayerScene]     clip registration and movement of [src/Player.js];
    - [SpriteConfigMore], [SpriteConfigStore]
                        the rest of [src/SpriteEditorConfig.js];
    - [SpriteEditor]    the form and the preview of [src/SpriteEditor.js].

    JavaScript numbers are modelled by [Z] where the source only ever holds
    integers (frame indices, rows, frame counts) and elsewhere by [Q], the
    rational number a finite double is.  The products of
    [calculateLegPositions] are rounded as IEEE 754 binary64 rounds them
    ([Number_multiply], on the Standard Library's [SpecFloat]).  The sums
    and differences that place a rectangle are taken exactly, and
    [Math.floor] is applied to the exact sum: on a sheet the double sum is
    within 2^-44 of it, so the two floors differ only when the exact sum is
    that close to an integer, which in the generator only a value of
    [Math.sin] can bring about ([drawArms]).  Strings are [string]; the
    enumerations that the source spells as string literals ('idle',
    'left', ...) are inductive types with a printing function. *)

From Stdlib Require Import ZArith QArith Qround Qabs String List Lia Lqa.
From Stdlib Require Import Floats.SpecFloat.
From stdpp Require Import base decidable option list strings gmap.

Open Scope Z_scope.

(** ** Shared enumerations *)

Inductive Direction := Down | Left | Right | Up.
Inductive Action := Idle | Walk | Run.

#[global] Instance Direction_eq_dec : EqDecision Direction.
Proof. solve_decision. Defined.
#[global] Instance Action_eq_dec : EqDecision Action.
Proof. solve_decision. Defined.

Definition directionName (d : Direction) : string :=
  match d with
  | Down => "down" | Left => "left" | Right => "right" | Up => "up"
  end.

Definition actionName (a : Action) : string :=
  match a with
  | Idle => "idle" | Walk => "walk" | Run => "run"
  end.

(** ** Player.js: the animation selector *)

Module Player.

(** The Phaser sprite is an external collaborator; all the selector does
    with it is call [sprite.play(key)], so the sprite is the log of the
    keys it was asked to play (most recent last). *)
Record Sprite := { plays : list string }.

Record Player := {
  currentState : Action;
  currentDirection : Direction;
  isMoving : bool;
  sprite : Sprite
}.

Definition play (key : string) (s : Sprite) : Sprite :=
  {| plays := plays s ++ [key] |}.

(** The constructor: state (idle, down), and [sprite.play('idle-down')]. *)
Definition constructor : Player :=
  {| currentState := Idle;
     currentDirection := Down;
     isMoving := false;
     sprite := play "idle-down" {| plays := [] |} |}.

(** [let newDirection = this.currentDirection; ... if (isMoving) { if
    (left) ... else if (right) ... else if (up) ... else if (down) ... }] *)
Definition newDirection (this : Player) (left right up down : bool)
  : Direction :=
  let isMoving := left || right || up || down in
  if isMoving then
    if left then Left
    else if right then Right
    else if up then Up
    else if down then Down
    else currentDirection this
  else currentDirection this.

(** [let newState = 'idle'; if (isMoving) { ...; newState = isRunning ?
    'run' : 'walk'; }] *)
Definition newState (left right up down isRunning : bool) : Action :=
  let isMoving := left || right || up || down in
  if isMoving then (if isRunning then Run else Walk) else Idle.

(** The template literal [`${newState}-${newDirection}`]. *)
Definition animationKey (a : Action) (d : Direction) : string :=
  (actionName a ++ "-" ++ directionName d)%string.

(** [newState !== this.currentState || newDirection !==
    this.currentDirection] *)
Definition changed (this : Player) (a : Action) (d : Direction) : bool :=
  negb (bool_decide (a = currentState this))
  || negb (bool_decide (d = currentDirection this)).

Definition updateAnimation (this : Player)
    (left right up down isRunning : bool) : Player :=
  let nd := newDirection this left right up down in
  let ns := newState left right up down isRunning in
  if changed this ns nd then
    {| currentState := ns;
       currentDirection := nd;
       isMoving := isMoving this;
       sprite := play (animationKey ns nd) (sprite this) |}
  else this.

(** Whether a call asked the sprite to (re)start a clip, and which. *)
Definition signalled (before after : Player) : list string :=
  drop (length (plays (sprite before))) (plays (sprite after)).

(** The first set flag of a priority list, as the specification words the
    tie-break; [priority] is the order it fixes. *)
Definition firstSet (flags : list (bool * Direction)) : option Direction :=
  snd <$> head (filter (λ f, fst f = true) flags).

Definition priority (left right up down : bool) : list (bool * Direction) :=
  [(left, Left); (right, Right); (up, Up); (down, Down)].

End Player.

(** ** JavaScript completions

    A JavaScript call either returns or throws.  The only operation of the
    modelled code that can throw is reading a property of [undefined]
    (a [TypeError]); arithmetic, array indexing and the canvas calls never
    do. *)

Inductive Completion (A : Type) :=
  | Normal (v : A)
  | Throw (error : string).
Arguments Normal {A} v.
Arguments Throw {A} error.

#[global] Instance Completion_ret : MRet Completion := fun A v => Normal v.
#[global] Instance Completion_bind : MBind Completion := fun A B f c =>
  match c with
  | Normal v => f v
  | Throw e => Throw e
  end.

Definition throws {A} (c : Completion A) : Prop := ∃ e, c = Throw e.

(** [array[i]]: [undefined] (here [None]) outside the array, never an
    error. *)
Definition arrayGet {A} (array : list A) (i : Z) : option A :=
  if bool_decide (0 ≤ i) then array !! Z.to_nat i else None.

(** [a || b] on values that are objects or [undefined]. *)
Definition or_else {A} (a b : option A) : option A :=
  match a with
  | Some v => Some v
  | None => b
  end.

(** Reading a property of [value]: a [TypeError] when it is [undefined]. *)
Definition deref {A} (value : option A) : Completion A :=
  match value with
  | Some v => Normal v
  | None => Throw "TypeError: Cannot read properties of undefined"
  end.

(** ** The canvas and the rest of the mutable world

    A 2D context records the rectangles it was asked to fill, each with the
    [fillStyle] current at that moment.  [Math.random] is global state too:
    the world holds the sequence it will deliver and how much of it has
    been consumed. *)

Inductive DrawOp :=
  | FillRect (style : string) (x y w h : Q)
  | ClearRect (x y w h : Q).

Record Canvas := {
  width : Z;
  height : Z;
  fillStyle : string;
  ops : list DrawOp
}.

Record World := {
  canvas : Canvas;
  randomSource : nat → Q;
  randomUsed : nat
}.

Definition withCanvas (c : Canvas) (w : World) : World :=
  {| canvas := c; randomSource := randomSource w; randomUsed := randomUsed w |}.

(** [document.createElement('canvas')] followed by the assignments to
    [canvas.width] and [canvas.height]. *)
Definition createCanvas (wd ht : Z) (w : World) : World :=
  withCanvas {| width := wd; height := ht; fillStyle := "#000000"; ops := [] |} w.

Definition setFillStyle (color : string) (w : World) : World :=
  let c := canvas w in
  withCanvas {| width := width c; height := height c;
                fillStyle := color; ops := ops c |} w.

Definition emit (op : DrawOp) (w : World) : World :=
  let c := canvas w in
  withCanvas {| width := width c; height := height c;
                fillStyle := fillStyle c; ops := ops c ++ [op] |} w.

Definition fillRect (x y wd ht : Q) (w : World) : World :=
  emit (FillRect (fillStyle (canvas w)) x y wd ht) w.

Definition clearRect (x y wd ht : Q) (w : World) : World :=
  emit (ClearRect x y wd ht) w.

(** [Math.random()] *)
Definition Math_random (w : World) : Q * World :=
  (randomSource w (randomUsed w),
   {| canvas := canvas w; randomSource := randomSource w;
      randomUsed := S (randomUsed w) |}).

(** [Math.floor(x)], as a number again. *)
Definition Math_floor (x : Q) : Q := inject_Z (Qfloor x).

(** ** Doubles: the products of the generator

    A JavaScript number is an IEEE 754 binary64 value: 53 bits of
    precision, infinities at exponent 1024. *)

Definition prec : Z := 53.
Definition emax : Z := 1024.

(** The double an integer below 2^53 in magnitude is. *)
Definition Number_ofZ (z : Z) : spec_float :=
  binary_normalize prec emax z 0 false.

(** The Number value for a rational whose numerator and denominator are
    below 2^53 in magnitude: the double nearest to it, ties to even.  It is
    the value of a decimal literal such as [1.3] (13 / 10), and of a
    number that is a double already. *)
Definition Number_ofQ (q : Q) : spec_float :=
  SFdiv prec emax (Number_ofZ (Qnum q)) (Number_ofZ (Zpos (Qden q))).

(** The rational number a finite double is; 0 for both zeros.  An
    infinity or a NaN has none, and is given 0 as well: no product of the
    generator is one ([leg_products_finite]). *)
Definition Number_toQ (x : spec_float) : Q :=
  match x with
  | S754_finite s m e =>
      Qred ((if s then -1 else 1) * inject_Z (Zpos m) * 2 ^ e)%Q
  | _ => 0%Q
  end.

(** Neither an infinity nor a NaN. *)
Definition finite (x : spec_float) : bool :=
  match x with
  | S754_zero _ | S754_finite _ _ _ => true
  | S754_infinity _ | S754_nan => false
  end.

(** [a * b] on numbers: the product of the two doubles, rounded to the
    nearest double, ties to even. *)
Definition Number_multiply (a b : Q) : Q :=
  Number_toQ (SFmul prec emax (Number_ofQ a) (Number_ofQ b)).

Arguments Number_multiply : simpl never.

(** The operations appended to the canvas between two worlds. *)
Definition emitted (before after : World) : list DrawOp :=
  drop (length (ops (canvas before))) (ops (canvas after)).

(** [for (x of l) body(x)] for a body that may throw. *)
Fixpoint forEach {A} (body : A → World → Completion World) (l : list A)
    (w : World) : Completion World :=
  match l with
  | [] => Normal w
  | x :: l' => w' ← body x w; forEach body l' w'
  end.

(** ** SpriteGenerator.js: the frame generator *)

Module SpriteGenerator.

Record Palette := {
  skin : string;
  skinShadow : string;
  hair : string;
  hairHighlight : string;
  shirt : string;
  shirtShadow : string;
  pants : string;
  pantsShadow : string;
  shoes : string;
  outline : string;
  eyes : string
}.

Record SpriteGenerator := {
  frameWidth : Z;
  frameHeight : Z;
  framesPerRow : Z;
  totalRows : Z;
  colors : Palette
}.

Definition constructor : SpriteGenerator :=
  {| frameWidth := 32;
     frameHeight := 32;
     framesPerRow := 6;
     totalRows := 12;
     colors :=
       {| skin := "#f4c99b";
          skinShadow := "#d4a574";
          hair := "#4a3728";
          hairHighlight := "#5c4333";
          shirt := "#3498db";
          shirtShadow := "#2980b9";
          pants := "#2c3e50";
          pantsShadow := "#1a252f";
          shoes := "#8b4513";
          outline := "#2c2c2c";
          eyes := "#2c2c2c" |} |}.

(** *** Leg positions *)

Record LegPositions := {
  leftX : Q;
  rightX : Q;
  leftY : Q;
  rightY : Q
}.

Definition walkCycle : list LegPositions :=
  [ {| leftX := -2; rightX := 2; leftY := 0; rightY := 0 |};
    {| leftX := -3; rightX := 3; leftY := -1; rightY := 1 |};
    {| leftX := -4; rightX := 4; leftY := 0; rightY := 0 |};
    {| leftX := -2; rightX := 2; leftY := 0; rightY := 0 |};
    {| leftX := -1; rightX := 1; leftY := 1; rightY := -1 |};
    {| leftX := -4; rightX := 4; leftY := 0; rightY := 0 |} ]%Q.

(** [const positions = walkCycle[frame] || walkCycle[0];].  The walk
    branch returns [positions] as it is; its callers read
    [positions.leftX] at once, so the model reads it at the return.  The
    run branch multiplies doubles: [positions.leftX * 1.3] is
    [Number_multiply (leftX p) 1.3]. *)
Definition calculateLegPositions (action : Action) (frame : Z)
  : Completion LegPositions :=
  if bool_decide (action = Idle) then
    Normal {| leftX := -2; rightX := 2; leftY := 0; rightY := 0 |}%Q
  else
    let positions := or_else (arrayGet walkCycle frame) (arrayGet walkCycle 0) in
    if bool_decide (action = Run) then
      p ← deref positions;
      Normal {| leftX := Number_multiply (leftX p) 1.3;
                rightX := Number_multiply (rightX p) 1.3;
                leftY := Number_multiply (leftY p) 1.5;
                rightY := Number_multiply (rightY p) 1.5 |}%Q
    else
      deref positions.

(** *** Primitives *)

Definition drawPixelRect (x y wd ht : Q) (color : string) (w : World)
  : World :=
  fillRect (Math_floor x) (Math_floor y) wd ht (setFillStyle color w).

Definition drawPixel (x y : Q) (color : string) (w : World) : World :=
  fillRect (Math_floor x) (Math_floor y) 1 1 (setFillStyle color w).

(** *** Body parts *)

Definition drawLegs (this : SpriteGenerator) (centerX baseY : Q)
    (direction : Direction) (positions : LegPositions) (w : World)
  : World :=
  let legHeight := 8%Q in
  if bool_decide (direction = Left) || bool_decide (direction = Right) then
    let frontLegX :=
      if bool_decide (direction = Left) then leftX positions
      else rightX positions in
    let backLegX :=
      if bool_decide (direction = Left) then rightX positions
      else leftX positions in
    let w := drawPixelRect (centerX + backLegX - 2) (baseY - legHeight - 2)
               3 legHeight (pantsShadow (colors this)) w in
    let w := drawPixelRect (centerX + backLegX - 2) (baseY - 3)
               3 3 (shoes (colors this)) w in
    let w := drawPixelRect (centerX + frontLegX - 2) (baseY - legHeight)
               3 legHeight (pants (colors this)) w in
    drawPixelRect (centerX + frontLegX - 2) (baseY - 2)
      3 2 (shoes (colors this)) w
  else
    let w := drawPixelRect (centerX - 5)
               (baseY - legHeight + leftY positions)
               4 legHeight (pants (colors this)) w in
    let w := drawPixelRect (centerX - 5) (baseY - 2 + leftY positions)
               4 2 (shoes (colors this)) w in
    let w := drawPixelRect (centerX + 1)
               (baseY - legHeight + rightY positions)
               4 legHeight (pants (colors this)) w in
    drawPixelRect (centerX + 1) (baseY - 2 + rightY positions)
      4 2 (shoes (colors this)) w.

Definition drawBody (this : SpriteGenerator) (centerX baseY : Q)
    (direction : Direction) (w : World) : World :=
  let bodyTop := (baseY - 18)%Q in
  let w := drawPixelRect (centerX - 5) bodyTop 10 10
             (shirt (colors this)) w in
  if bool_decide (direction = Left) then
    drawPixelRect (centerX + 2) bodyTop 3 10 (shirtShadow (colors this)) w
  else if bool_decide (direction = Right) then
    drawPixelRect (centerX - 5) bodyTop 3 10 (shirtShadow (colors this)) w
  else
    drawPixelRect (centerX - 5) (bodyTop + 7) 10 3
      (shirtShadow (colors this)) w.

Definition drawHead (this : SpriteGenerator) (centerX baseY : Q)
    (direction : Direction) (w : World) : World :=
  let headTop := (baseY - 26)%Q in
  let w := drawPixelRect (centerX - 5) (headTop + 1) 10 7
             (skin (colors this)) w in
  let w := drawPixelRect (centerX - 4) headTop 8 1
             (skin (colors this)) w in
  let w := drawPixelRect (centerX - 4) (headTop + 8) 8 1
             (skin (colors this)) w in
  if bool_decide (direction = Left) then
    drawPixelRect (centerX + 3) (headTop + 1) 2 7
      (skinShadow (colors this)) w
  else if bool_decide (direction = Right) then
    drawPixelRect (centerX - 5) (headTop + 1) 2 7
      (skinShadow (colors this)) w
  else w.

Definition drawFace (this : SpriteGenerator) (centerX baseY : Q)
    (w : World) : World :=
  let headTop := (baseY - 26)%Q in
  let w := drawPixel (centerX - 3) (headTop + 3) (eyes (colors this)) w in
  drawPixel (centerX + 2) (headTop + 3) (eyes (colors this)) w.

Definition drawFaceSide (this : SpriteGenerator) (centerX baseY : Q)
    (direction : Direction) (w : World) : World :=
  let headTop := (baseY - 26)%Q in
  let eyeX :=
    (if bool_decide (direction = Left) then centerX - 3
     else centerX + 2)%Q in
  drawPixel eyeX (headTop + 3) (eyes (colors this)) w.

Definition drawHairFront (this : SpriteGenerator) (centerX baseY : Q)
    (w : World) : World :=
  let headTop := (baseY - 26)%Q in
  let w := drawPixelRect (centerX - 5) (headTop - 2) 10 3
             (hair (colors this)) w in
  let w := drawPixelRect (centerX - 4) (headTop - 3) 8 1
             (hair (colors this)) w in
  let w := drawPixelRect (centerX - 4) headTop 3 2
             (hair (colors this)) w in
  let w := drawPixelRect (centerX + 1) headTop 3 2
             (hair (colors this)) w in
  drawPixel (centerX - 2) (headTop - 2) (hairHighlight (colors this)) w.

Definition drawHairBack (this : SpriteGenerator) (centerX baseY : Q)
    (w : World) : World :=
  let headTop := (baseY - 26)%Q in
  let w := drawPixelRect (centerX - 5) (headTop - 2) 10 10
             (hair (colors this)) w in
  let w := drawPixelRect (centerX - 4) (headTop - 3) 8 1
             (hair (colors this)) w in
  drawPixel centerX (headTop - 1) (hairHighlight (colors this)) w.

Definition drawHairSide (this : SpriteGenerator) (centerX baseY : Q)
    (direction : Direction) (w : World) : World :=
  let headTop := (baseY - 26)%Q in
  let w := drawPixelRect (centerX - 5) (headTop - 2) 10 3
             (hair (colors this)) w in
  let w := drawPixelRect (centerX - 4) (headTop - 3) 8 1
             (hair (colors this)) w in
  let w :=
    if bool_decide (direction = Left) then
      drawPixelRect (centerX + 3) headTop 2 5 (hair (colors this)) w
    else
      drawPixelRect (centerX - 5) headTop 2 5 (hair (colors this)) w in
  drawPixel (centerX - 1) (headTop - 2) (hairHighlight (colors this)) w.

(** *** Arms, the whole character, and the three groups of rows

    [Math.sin] and [Math.PI] belong to the JavaScript runtime; the
    generator is modelled for any value of them. *)

Section WithMath.

Variable Math_sin : Q → Q.
Variable Math_PI : Q.

Definition drawArms (this : SpriteGenerator) (centerX baseY : Q)
    (direction : Direction) (action : Action) (frame : Z) (w : World)
  : World :=
  let armY := (baseY - 16)%Q in
  let armSwing :=
    if bool_decide (action = Walk) || bool_decide (action = Run) then
      let swingAmount := (if bool_decide (action = Run) then 3 else 2)%Q in
      (Math_sin ((inject_Z frame / 6) * Math_PI * 2) * swingAmount)%Q
    else 0%Q in
  if bool_decide (direction = Left) then
    let w := drawPixelRect (centerX + 4) (armY + armSwing) 3 6
               (shirt (colors this)) w in
    drawPixelRect (centerX + 4) (armY + 5 + armSwing) 3 2
      (skin (colors this)) w
  else if bool_decide (direction = Right) then
    let w := drawPixelRect (centerX - 7) (armY - armSwing) 3 6
               (shirt (colors this)) w in
    drawPixelRect (centerX - 7) (armY + 5 - armSwing) 3 2
      (skin (colors this)) w
  else w.

Definition drawCharacter (this : SpriteGenerator) (x y : Q)
    (direction : Direction) (action : Action) (frame : Z) (offsetY : Q)
    (w : World) : Completion World :=
  let centerX := (x + inject_Z (frameWidth this) / 2)%Q in
  let baseY := (y + inject_Z (frameHeight this) - 4 + offsetY)%Q in
  legPositions ← calculateLegPositions action frame;
  if bool_decide (direction = Up) then
    let w := drawLegs this centerX baseY direction legPositions w in
    let w := drawBody this centerX baseY direction w in
    let w := drawHead this centerX baseY direction w in
    Normal (drawHairBack this centerX baseY w)
  else if bool_decide (direction = Down) then
    let w := drawLegs this centerX baseY direction legPositions w in
    let w := drawBody this centerX baseY direction w in
    let w := drawHead this centerX baseY direction w in
    let w := drawFace this centerX baseY w in
    Normal (drawHairFront this centerX baseY w)
  else
    let w := drawLegs this centerX baseY direction legPositions w in
    let w := drawBody this centerX baseY direction w in
    let w := drawArms this centerX baseY direction action frame w in
    let w := drawHead this centerX baseY direction w in
    let w := drawFaceSide this centerX baseY direction w in
    Normal (drawHairSide this centerX baseY direction w).

(** One call of [drawCharacter], as the loops of the generator issue
    it: the loop bodies only compute these arguments from the loop
    indices and the fields of [this], which no drawing call changes. *)
Record FrameCall := {
  call_x : Z;
  call_y : Z;
  call_direction : Direction;
  call_action : Action;
  call_frame : Z;
  call_offsetY : Z
}.

Definition perform (this : SpriteGenerator) (c : FrameCall) (w : World)
  : Completion World :=
  drawCharacter this (inject_Z (call_x c)) (inject_Z (call_y c))
    (call_direction c) (call_action c) (call_frame c)
    (inject_Z (call_offsetY c)) w.

Definition directions : list Direction := [Down; Left; Right; Up].

(** [(frame === 1 || frame === 3) ? -1 : 0] *)
Definition breathOffset (frame : Z) : Z :=
  if bool_decide (frame = 1) || bool_decide (frame = 3) then -1 else 0.

(** [(frame === 0 || frame === 3) ? 0 : -1] in [generateWalkAnimations]
    and [(frame === 0 || frame === 3) ? 0 : -2] in
    [generateRunAnimations]: both are called [bounceOffset] there. *)
Definition bounceOffset (action : Action) (frame : Z) : Z :=
  if bool_decide (frame = 0) || bool_decide (frame = 3) then 0
  else if bool_decide (action = Run) then -2 else -1.

(** [directions.forEach((direction, rowIndex) => { for (let frame = 0;
    frame < 4; frame++) ... })] *)
Definition idleCalls (this : SpriteGenerator) : list FrameCall :=
  mjoin (imap (λ rowIndex direction,
    (λ frame,
       {| call_x := frame * frameWidth this;
          call_y := Z.of_nat rowIndex * frameHeight this;
          call_direction := direction;
          call_action := Idle;
          call_frame := frame;
          call_offsetY := breathOffset frame |}) <$> seqZ 0 4)
    directions).

(** [const rowIndex = 4 + dirIndex;] and six frames. *)
Definition walkCalls (this : SpriteGenerator) : list FrameCall :=
  mjoin (imap (λ dirIndex direction,
    let rowIndex := 4 + Z.of_nat dirIndex in
    (λ frame,
       {| call_x := frame * frameWidth this;
          call_y := rowIndex * frameHeight this;
          call_direction := direction;
          call_action := Walk;
          call_frame := frame;
          call_offsetY := bounceOffset Walk frame |}) <$> seqZ 0 6)
    directions).

(** [const rowIndex = 8 + dirIndex;] and six frames. *)
Definition runCalls (this : SpriteGenerator) : list FrameCall :=
  mjoin (imap (λ dirIndex direction,
    let rowIndex := 8 + Z.of_nat dirIndex in
    (λ frame,
       {| call_x := frame * frameWidth this;
          call_y := rowIndex * frameHeight this;
          call_direction := direction;
          call_action := Run;
          call_frame := frame;
          call_offsetY := bounceOffset Run frame |}) <$> seqZ 0 6)
    directions).

Definition generateIdleAnimations (this : SpriteGenerator)
  : World → Completion World :=
  forEach (perform this) (idleCalls this).

Definition generateWalkAnimations (this : SpriteGenerator)
  : World → Completion World :=
  forEach (perform this) (walkCalls this).

Definition generateRunAnimations (this : SpriteGenerator)
  : World → Completion World :=
  forEach (perform this) (runCalls this).

(** Every [drawCharacter] call of one [generateSpritesheet], in order. *)
Definition spritesheetCalls (this : SpriteGenerator) : list FrameCall :=
  idleCalls this ++ walkCalls this ++ runCalls this.

(** The result is the canvas, of which [toDataURL] is an encoding. *)
Definition generateSpritesheet (this : SpriteGenerator) (w : World)
  : Completion World :=
  let w := createCanvas (frameWidth this * framesPerRow this)
             (frameHeight this * totalRows this) w in
  let w := clearRect 0 0 (inject_Z (width (canvas w)))
             (inject_Z (height (canvas w))) w in
  w ← generateIdleAnimations this w;
  w ← generateWalkAnimations this w;
  generateRunAnimations this w.

End WithMath.

End SpriteGenerator.

(** ** GameScene.js: the scene's own driver of the generator *)

Module GameScene.

Import SpriteGenerator.

Record Animation := {
  row : Z;
  direction : Direction;
  action : Action;
  frames : Z
}.

(** The table local to [generateAllFrames]. *)
Definition animations : list Animation :=
  [ {| row := 0; direction := Down; action := Idle; frames := 4 |};
    {| row := 1; direction := Left; action := Idle; frames := 4 |};
    {| row := 2; direction := Right; action := Idle; frames := 4 |};
    {| row := 3; direction := Up; action := Idle; frames := 4 |};
    {| row := 4; direction := Down; action := Walk; frames := 6 |};
    {| row := 5; direction := Left; action := Walk; frames := 6 |};
    {| row := 6; direction := Right; action := Walk; frames := 6 |};
    {| row := 7; direction := Up; action := Walk; frames := 6 |};
    {| row := 8; direction := Down; action := Run; frames := 6 |};
    {| row := 9; direction := Left; action := Run; frames := 6 |};
    {| row := 10; direction := Right; action := Run; frames := 6 |};
    {| row := 11; direction := Up; action := Run; frames := 6 |} ].

(** [let offsetY = 0; if (anim.action === 'idle') { ... } else if
    (anim.action === 'walk') { ... } else if (anim.action === 'run')
    { ... }] *)
Definition offsetY (action : Action) (frame : Z) : Z :=
  if bool_decide (action = Idle) then
    if bool_decide (frame = 1) || bool_decide (frame = 3) then -1 else 0
  else if bool_decide (action = Walk) then
    if bool_decide (frame = 0) || bool_decide (frame = 3) then 0 else -1
  else if bool_decide (action = Run) then
    if bool_decide (frame = 0) || bool_decide (frame = 3) then 0 else -2
  else 0.

(** [animations.forEach(anim => { for (let frame = 0; frame <
    anim.frames; frame++) ... })] *)
Definition allFramesCalls : list FrameCall :=
  let frameWidth := 32 in
  let frameHeight := 32 in
  anim ← animations;
  (λ frame,
     {| call_x := frame * frameWidth;
        call_y := row anim * frameHeight;
        call_direction := direction anim;
        call_action := action anim;
        call_frame := frame;
        call_offsetY := offsetY (action anim) frame |})
  <$> seqZ 0 (frames anim).

Section WithMath.

Variable Math_sin : Q → Q.
Variable Math_PI : Q.

Definition generateAllFrames (generator : SpriteGenerator)
  : World → Completion World :=
  forEach (perform Math_sin Math_PI generator) allFramesCalls.

(** The texture manager that receives the canvas is external. *)
Definition generatePlayerSpritesheet (w : World) : Completion World :=
  let generator := SpriteGenerator.constructor in
  let w := createCanvas (32 * 6) (32 * 12) w in
  generateAllFrames generator w.

End WithMath.

(** [for (let i = 0; i < n; i++) { const x = Math.random() * sx; const y
    = Math.random() * sy; ctx.fillRect(x, y, wd, ht); }] *)
Fixpoint speckle (n : nat) (sx sy wd ht : Q) (w : World) : World :=
  match n with
  | O => w
  | S n' =>
      let '(r1, w) := Math_random w in
      let x := (r1 * sx)%Q in
      let '(r2, w) := Math_random w in
      let y := (r2 * sy)%Q in
      speckle n' sx sy wd ht (fillRect x y wd ht w)
  end.

Definition generateGroundTiles (w : World) : World :=
  let w := createCanvas 32 32 w in
  let w := setFillStyle "#4a7c59" w in
  let w := fillRect 0 0 32 32 w in
  let w := setFillStyle "#5a8c69" w in
  let w := speckle 20 30 30 2 2 w in
  let w := setFillStyle "#3a6c49" w in
  speckle 10 28 28 3 1 w.

End GameScene.

(** ** SpriteEditorConfig.js: the clip table *)

Module SpriteConfig.

(** One element of [config.animations].  The editor stores actions the
    game does not play ('attack', 'hurt', ...), so both keys are
    strings here. *)
Record Animation := {
  action : string;
  direction : string;
  row : Z;
  startFrame : Z;
  frameCount : Z;
  frameRate : Z
}.

Record Config := {
  frameWidth : Z;
  frameHeight : Z;
  animations : list Animation
}.

Definition DEFAULT_ANIMATION_CONFIG : Config :=
  {| frameWidth := 32;
     frameHeight := 32;
     animations :=
       [ {| action := "idle"; direction := "down"; row := 0;
            startFrame := 0; frameCount := 4; frameRate := 4 |};
         {| action := "idle"; direction := "left"; row := 1;
            startFrame := 0; frameCount := 4; frameRate := 4 |};
         {| action := "idle"; direction := "right"; row := 2;
            startFrame := 0; frameCount := 4; frameRate := 4 |};
         {| action := "idle"; direction := "up"; row := 3;
            startFrame := 0; frameCount := 4; frameRate := 4 |};
         {| action := "walk"; direction := "down"; row := 4;
            startFrame := 0; frameCount := 6; frameRate := 8 |};
         {| action := "walk"; direction := "left"; row := 5;
            startFrame := 0; frameCount := 6; frameRate := 8 |};
         {| action := "walk"; direction := "right"; row := 6;
            startFrame := 0; frameCount := 6; frameRate := 8 |};
         {| action := "walk"; direction := "up"; row := 7;
            startFrame := 0; frameCount := 6; frameRate := 8 |};
         {| action := "run"; direction := "down"; row := 8;
            startFrame := 0; frameCount := 6; frameRate := 12 |};
         {| action := "run"; direction := "left"; row := 9;
            startFrame := 0; frameCount := 6; frameRate := 12 |};
         {| action := "run"; direction := "right"; row := 10;
            startFrame := 0; frameCount := 6; frameRate := 12 |};
         {| action := "run"; direction := "up"; row := 11;
            startFrame := 0; frameCount := 6; frameRate := 12 |} ] |}.

(** The [updates] argument: an object that may name any property of an
    animation.  Properties that no animation has are left out; nothing
    reads them. *)
Record Updates := {
  u_action : option string;
  u_direction : option string;
  u_row : option Z;
  u_startFrame : option Z;
  u_frameCount : option Z;
  u_frameRate : option Z
}.

Definition noUpdates : Updates :=
  {| u_action := None; u_direction := None; u_row := None;
     u_startFrame := None; u_frameCount := None; u_frameRate := None |}.

(** [Object.assign(anim, updates)], and the spread [{ ...anim,
    ...updates }]: a property of [updates] wins. *)
Definition Object_assign (anim : Animation) (updates : Updates)
  : Animation :=
  {| action := default (action anim) (u_action updates);
     direction := default (direction anim) (u_direction updates);
     row := default (row anim) (u_row updates);
     startFrame := default (startFrame anim) (u_startFrame updates);
     frameCount := default (frameCount anim) (u_frameCount updates);
     frameRate := default (frameRate anim) (u_frameRate updates) |}.

(** [a => a.action === action && a.direction === direction] *)
Definition isFor (action' direction' : string) (a : Animation) : Prop :=
  action a = action' ∧ direction a = direction'.

#[global] Instance isFor_dec action' direction' a :
  Decision (isFor action' direction' a).
Proof. unfold isFor. apply _. Defined.

(** The object literal pushed when no animation is found. *)
Definition newAnimation (action' direction' : string) (updates : Updates)
  : Animation :=
  Object_assign
    {| action := action'; direction := direction'; row := 0;
       startFrame := 0; frameCount := 4; frameRate := 8 |}
    updates.

(** [updateAnimation] on the array [this.config.animations]: the found
    element is changed in place, at its index. *)
Definition updateAnimation (animations : list Animation)
    (action' direction' : string) (updates : Updates) : list Animation :=
  match list_find (isFor action' direction') animations with
  | Some (i, anim) => <[i := Object_assign anim updates]> animations
  | None => animations ++ [newAnimation action' direction' updates]
  end.

(** [getAnimation]: [None] is [undefined]. *)
Definition getAnimation (animations : list Animation)
    (action' direction' : string) : option Animation :=
  snd <$> list_find (isFor action' direction') animations.

Definition rows (animations : list Animation) : list Z :=
  row <$> animations.

(** The clip tables the editor can reach from the default one. *)
Inductive reachable : list Animation → Prop :=
  | reachable_default :
      reachable (animations DEFAULT_ANIMATION_CONFIG)
  | reachable_update t a d u :
      reachable t → reachable (updateAnimation t a d u).

(** What one update does to the rows: the row the touched (or appended)
    animation ends with is its old one or one no animation uses. *)
Definition keepsRowsDistinct (t : list Animation)
    (action' direction' : string) (updates : Updates) : Prop :=
  match list_find (isFor action' direction') t with
  | Some (i, anim) =>
      row (Object_assign anim updates) = row anim
      ∨ row (Object_assign anim updates) ∉ rows t
  | None => row (newAnimation action' direction' updates) ∉ rows t
  end.

(** Tables reached through updates that each keep the rows distinct. *)
Inductive reachableDistinct : list Animation → Prop :=
  | distinct_default :
      reachableDistinct (animations DEFAULT_ANIMATION_CONFIG)
  | distinct_update t a d u :
      reachableDistinct t → keepsRowsDistinct t a d u →
      reachableDistinct (updateAnimation t a d u).

(** [updates] does not rename the animation it is applied to. *)
Definition keepsKey (action' direction' : string) (updates : Updates)
  : Prop :=
  default action' (u_action updates) = action'
  ∧ default direction' (u_direction updates) = direction'.

(** Every property named by [updates] has that value in [anim]. *)
Definition includes (anim : Animation) (updates : Updates) : Prop :=
  (∀ v, u_action updates = Some v → action anim = v)
  ∧ (∀ v, u_direction updates = Some v → direction anim = v)
  ∧ (∀ v, u_row updates = Some v → row anim = v)
  ∧ (∀ v, u_startFrame updates = Some v → startFrame anim = v)
  ∧ (∀ v, u_frameCount updates = Some v → frameCount anim = v)
  ∧ (∀ v, u_frameRate updates = Some v → frameRate anim = v).

End SpriteConfig.

(** ** Vocabulary of the properties *)

(** The bound of the frame loop of each action: [frame < 4] in
    [generateIdleAnimations], [frame < 6] in the other two. *)
Definition frameCount (action : Action) : Z :=
  match action with
  | Idle => 4
  | Walk | Run => 6
  end.

(** The vertical offset as the specification words it: periodic, with
    period 4 for idle and 6 for walk and run. *)
Definition periodicOffset (action : Action) (frame : Z) : Z :=
  match action with
  | Idle =>
      if bool_decide (frame `mod` 4 = 1 ∨ frame `mod` 4 = 3) then -1 else 0
  | Walk =>
      if bool_decide (frame `mod` 6 = 0 ∨ frame `mod` 6 = 3) then 0 else -1
  | Run =>
      if bool_decide (frame `mod` 6 = 0 ∨ frame `mod` 6 = 3) then 0 else -2
  end.

(** The rows of the sheet as the specification lists them: row, action,
    direction, number of frames. *)
Definition rowLayout : list (Z * Action * Direction * Z) :=
  [ (0, Idle, Down, 4); (1, Idle, Left, 4);
    (2, Idle, Right, 4); (3, Idle, Up, 4);
    (4, Walk, Down, 6); (5, Walk, Left, 6);
    (6, Walk, Right, 6); (7, Walk, Up, 6);
    (8, Run, Down, 6); (9, Run, Left, 6);
    (10, Run, Right, 6); (11, Run, Up, 6) ].

(** The grid cell a call draws into, for frames of the given size: row,
    column, and what is drawn there. *)
Definition cell (frameWidth frameHeight : Z) (c : SpriteGenerator.FrameCall)
  : Z * Z * Action * Direction :=
  (SpriteGenerator.call_y c `div` frameHeight,
   SpriteGenerator.call_x c `div` frameWidth,
   SpriteGenerator.call_action c,
   SpriteGenerator.call_direction c).

(** The cells of [rowLayout], row by row, columns from 0. *)
Definition layoutCells : list (Z * Z * Action * Direction) :=
  '(r, a, d, n) ← rowLayout; (λ column, (r, column, a, d)) <$> seqZ 0 n.


(** A statement sequence that only appends drawing operations which do
    not depend on the world it starts from, and leaves the random source
    and the canvas size alone. *)
Definition appends (f : World → World) (drawn : list DrawOp) : Prop :=
  ∀ w, ops (canvas (f w)) = ops (canvas w) ++ drawn
       ∧ width (canvas (f w)) = width (canvas w)
       ∧ height (canvas (f w)) = height (canvas w)
       ∧ randomSource (f w) = randomSource w
       ∧ randomUsed (f w) = randomUsed w.

Definition oblivious (f : World → World) : Prop := ∃ drawn, appends f drawn.

(** It appends at least one operation. *)
Definition draws (f : World → World) : Prop :=
  ∃ drawn, drawn ≠ [] ∧ appends f drawn.

(** The same for a call that may throw: it returns, whatever the world. *)
Definition obliviousCall (f : World → Completion World) : Prop :=
  ∃ g, oblivious g ∧ ∀ w, f w = Normal (g w).

(** ** Player.js: clip registration and movement *)

Module PlayerScene.

Import Player.

(** One entry of the scene's animation manager: what
    [scene.anims.create({ key, frames: generateFrameNumbers('player',
    { start, end }), frameRate, repeat })] stores under [key].  The frame
    numbers of [generateFrameNumbers] are [start], ..., [end]. *)
Record Clip := {
  frames : list Z;
  frameRate : Z;
  repeat : Z
}.

Record ClipConfig := {
  cfg_frameRate : Z;
  cfg_repeat : Z
}.

(** [if (this.scene.anims.exists(key)) return; this.scene.anims.create
    (...)], on [this.scene.anims], the clips by key. *)
Definition createAnimation (key : string) (startFrame endFrame : Z)
    (config : ClipConfig) (anims : gmap string Clip)
  : gmap string Clip :=
  if bool_decide (is_Some (anims !! key)) then anims
  else
    <[key := {| frames := seqZ startFrame (endFrame - startFrame + 1);
                frameRate := cfg_frameRate config;
                repeat := cfg_repeat config |}]> anims.

Definition createAnimations (anims : gmap string Clip)
  : gmap string Clip :=
  let idleConfig := {| cfg_frameRate := 4; cfg_repeat := -1 |} in
  let anims := createAnimation "idle-down" 0 3 idleConfig anims in
  let anims := createAnimation "idle-left" 6 9 idleConfig anims in
  let anims := createAnimation "idle-right" 12 15 idleConfig anims in
  let anims := createAnimation "idle-up" 18 21 idleConfig anims in
  let walkConfig := {| cfg_frameRate := 8; cfg_repeat := -1 |} in
  let anims := createAnimation "walk-down" 24 29 walkConfig anims in
  let anims := createAnimation "walk-left" 30 35 walkConfig anims in
  let anims := createAnimation "walk-right" 36 41 walkConfig anims in
  let anims := createAnimation "walk-up" 42 47 walkConfig anims in
  let runConfig := {| cfg_frameRate := 12; cfg_repeat := -1 |} in
  let anims := createAnimation "run-down" 48 53 runConfig anims in
  let anims := createAnimation "run-left" 54 59 runConfig anims in
  let anims := createAnimation "run-right" 60 65 runConfig anims in
  createAnimation "run-up" 66 71 runConfig anims.

(** The frame number Phaser gives the cell at [row], [column] of a sheet
    with [framesPerRow] columns: cells are numbered row by row. *)
Definition frameNumber (framesPerRow row column : Z) : Z :=
  row * framesPerRow + column.

(** The four direction keys of [cursors] or of [wasd]: their [isDown]. *)
Record Keys := {
  key_left : bool;
  key_right : bool;
  key_up : bool;
  key_down : bool
}.

(** The calls [update] makes on the physics body of the sprite, which
    belongs to Phaser. *)
Inductive BodyCall :=
  | SetVelocity (v : Z)
  | SetVelocityX (v : Z)
  | SetVelocityY (v : Z)
  | NormalizeScale (speed : Z).

Definition walkSpeed : Z := 100.
Definition runSpeed : Z := 180.

(** [update(cursors, wasd, shiftKey)]: the player after the call and the
    body calls it made, in order. *)
Definition update (this : Player) (cursors wasd : Keys) (shiftKey : bool)
  : Player * list BodyCall :=
  let left := key_left cursors || key_left wasd in
  let right := key_right cursors || key_right wasd in
  let up := key_up cursors || key_up wasd in
  let down := key_down cursors || key_down wasd in
  let isRunning := shiftKey in
  let speed := if isRunning then runSpeed else walkSpeed in
  let calls := [SetVelocity 0] in
  let calls :=
    if left then calls ++ [SetVelocityX (- speed)]
    else if right then calls ++ [SetVelocityX speed]
    else calls in
  let calls :=
    if up then calls ++ [SetVelocityY (- speed)]
    else if down then calls ++ [SetVelocityY speed]
    else calls in
  let calls := calls ++ [NormalizeScale speed] in
  (updateAnimation this left right up down isRunning, calls).

(** The velocity the [setVelocity] calls leave on the body, before
    [normalize().scale(speed)] rescales it to length [speed]. *)
Definition requestedVelocity (calls : list BodyCall) : Z * Z :=
  foldl (λ v call,
           match call with
           | SetVelocity s => (s, s)
           | SetVelocityX s => (s, snd v)
           | SetVelocityY s => (fst v, s)
           | NormalizeScale _ => v
           end) (0, 0) calls.

(** One tick of input for the selector alone. *)
Record Input := {
  in_left : bool;
  in_right : bool;
  in_up : bool;
  in_down : bool;
  in_running : bool
}.

(** [updateAnimation] once per tick, over a sequence of ticks. *)
Definition ticks (inputs : list Input) (this : Player) : Player :=
  foldl (λ p i,
           updateAnimation p (in_left i) (in_right i) (in_up i) (in_down i)
             (in_running i)) this inputs.

End PlayerScene.

(** ** Where a frame is drawn *)

(** The rectangle of a drawing operation lies in the box of pixel columns
    [x0], ..., [x1 - 1] and pixel rows [y0], ..., [y1 - 1]. *)
Definition inBox (x0 y0 x1 y1 : Z) (op : DrawOp) : Prop :=
  match op with
  | FillRect _ x y w h =>
      (inject_Z x0 <= x ∧ x + w <= inject_Z x1
       ∧ inject_Z y0 <= y ∧ y + h <= inject_Z y1)%Q
  | ClearRect _ _ _ _ => False
  end.

(** A statement sequence that appends only rectangles of that box. *)
Definition confined (x0 y0 x1 y1 : Z) (f : World → World) : Prop :=
  ∃ drawn, appends f drawn ∧ Forall (inBox x0 y0 x1 y1) drawn.

(** A statement sequence that appends, among others, [op]. *)
Definition emits (op : DrawOp) (f : World → World) : Prop :=
  ∃ drawn, appends f drawn ∧ op ∈ drawn.

(** It appends at least one rectangle, and only rectangles of that
    box. *)
Definition paints (x0 y0 x1 y1 : Z) (f : World → World) : Prop :=
  ∃ drawn, drawn ≠ [] ∧ appends f drawn ∧ Forall (inBox x0 y0 x1 y1) drawn.

(** A world whose canvas nothing was drawn on. *)
Definition blank : World :=
  {| canvas := {| width := 0; height := 0; fillStyle := "#000000";
                  ops := [] |};
     randomSource := λ _, 0%Q;
     randomUsed := 0 |}.

(** What a call draws: the operations it leaves on a blank canvas. *)
Definition drawing (f : World → Completion World) : list DrawOp :=
  match f blank with
  | Normal w => ops (canvas w)
  | Throw _ => []
  end.

(** The call that fills a cell of [layoutCells], for frames of 32 by 32:
    frame [column] of the action and direction of the row, at the corner
    of the cell, with the vertical offset of the frame. *)
Definition cellCall (c : Z * Z * Action * Direction)
  : SpriteGenerator.FrameCall :=
  let '(r, column, a, d) := c in
  {| SpriteGenerator.call_x := column * 32;
     SpriteGenerator.call_y := r * 32;
     SpriteGenerator.call_direction := d;
     SpriteGenerator.call_action := a;
     SpriteGenerator.call_frame := column;
     SpriteGenerator.call_offsetY := periodicOffset a column |}.

Section Frames.

Import SpriteGenerator.

Variable Math_sin : Q → Q.
Variable Math_PI : Q.

(** The frame of a cell, as the generator constructed with the default
    sizes and colours draws it. *)
Definition frameAt (c : Z * Z * Action * Direction) : list DrawOp :=
  drawing (perform Math_sin Math_PI constructor (cellCall c)).

(** The statements of [drawCharacter] that come before the hair: legs,
    body, arms (side views), head and face. *)
Definition figure (this : SpriteGenerator) (centerX baseY : Q)
    (direction : Direction) (action : Action) (frame : Z)
    (positions : LegPositions) (w : World) : World :=
  let w := drawLegs this centerX baseY direction positions w in
  let w := drawBody this centerX baseY direction w in
  match direction with
  | Up => drawHead this centerX baseY direction w
  | Down =>
      let w := drawHead this centerX baseY direction w in
      drawFace this centerX baseY w
  | Left | Right =>
      let w := drawArms Math_sin Math_PI this centerX baseY direction action
                 frame w in
      let w := drawHead this centerX baseY direction w in
      drawFaceSide this centerX baseY direction w
  end.

End Frames.

(** The last statement of [drawCharacter]: the hair of the view. *)
Definition hairOf (this : SpriteGenerator.SpriteGenerator)
    (centerX baseY : Q) (direction : Direction) (w : World) : World :=
  match direction with
  | Up => SpriteGenerator.drawHairBack this centerX baseY w
  | Down => SpriteGenerator.drawHairFront this centerX baseY w
  | Left | Right => SpriteGenerator.drawHairSide this centerX baseY direction w
  end.

(** What tells the four views apart, for a frame drawn with vertical
    offset [off] in the cell whose corner is ([X], [Y]): the two eyes of
    the front view; the hair over the whole head of the back view; the
    one eye of a side view, and the shadow on the side of the body that
    is turned away. *)
Definition viewMarks (direction : Direction) (X Y off : Z) : list DrawOp :=
  let colors := SpriteGenerator.colors SpriteGenerator.constructor in
  let eye (column : Z) :=
    FillRect (SpriteGenerator.eyes colors) (inject_Z (X + column))
      (inject_Z (Y + 5 + off)) 1 1 in
  let shadow (column : Z) :=
    FillRect (SpriteGenerator.shirtShadow colors) (inject_Z (X + column))
      (inject_Z (Y + 10 + off)) 3 10 in
  match direction with
  | Down => [eye 13; eye 18]
  | Up =>
      [FillRect (SpriteGenerator.hair colors) (inject_Z (X + 11))
         (inject_Z (Y + off)) 10 10]
  | Left => [shadow 18; eye 13]
  | Right => [shadow 11; eye 18]
  end.

(** ** SpriteEditorConfig.js: the rest of the class *)

Module SpriteConfigMore.

Import SpriteConfig.

(** [getAnimationsByAction]: [this.config.animations.filter(a => a.action
    === action)]. *)
Definition getAnimationsByAction (animations : list Animation)
    (action' : string) : list Animation :=
  filter (λ a, action a = action') animations.

(** What identifies an animation. *)
Definition key (a : Animation) : string * string := (action a, direction a).

Definition keys (animations : list Animation) : list (string * string) :=
  key <$> animations.

(** Two update objects applied one after the other: a property of the
    second wins. *)
Definition merge (first second : Updates) : Updates :=
  {| u_action := from_option Some (u_action first) (u_action second);
     u_direction :=
       from_option Some (u_direction first) (u_direction second);
     u_row := from_option Some (u_row first) (u_row second);
     u_startFrame :=
       from_option Some (u_startFrame first) (u_startFrame second);
     u_frameCount :=
       from_option Some (u_frameCount first) (u_frameCount second);
     u_frameRate :=
       from_option Some (u_frameRate first) (u_frameRate second) |}.

(** The tables reached from the default one by updates that do not rename
    the animation they are applied to. *)
Inductive reachableKeeping : list Animation → Prop :=
  | keeping_default :
      reachableKeeping (animations DEFAULT_ANIMATION_CONFIG)
  | keeping_update t a d u :
      reachableKeeping t → keepsKey a d u →
      reachableKeeping (updateAnimation t a d u).

End SpriteConfigMore.

(** ** SpriteEditorConfig.js: the object, the shared default and the
    browser's storage

    [{ ...DEFAULT_ANIMATION_CONFIG }] copies the three properties of the
    default configuration; its [animations] is therefore the very array of
    [DEFAULT_ANIMATION_CONFIG], which [updateAnimation] changes in place.
    [JSON.parse] makes an array of its own.  The model covers the
    configurations whose numbers are integers, as every table of this
    file is: of such a configuration [JSON.parse (JSON.stringify c)] has
    the properties of [c], and its JSON text is modelled by the
    configuration it denotes.  A configuration that holds NaN, which
    [parseInt] makes of an emptied field of the editor and
    [JSON.stringify] writes as [null], is outside the model. *)

Module SpriteConfigStore.

Import SpriteConfig.

Inductive ArrayRef :=
  | DefaultArray
  | OwnArray (contents : list Animation).

Record ConfigObject := {
  cfg_frameWidth : Z;
  cfg_frameHeight : Z;
  cfg_animations : ArrayRef
}.

(** The item stored under 'spritesheet_config'. *)
Inductive StoredConfig :=
  | JsonConfig (frameWidth frameHeight : Z) (animations : list Animation)
  | NotJson (text : string).

(** What is shared by every [SpriteConfig] of the page: the array of
    [DEFAULT_ANIMATION_CONFIG] as it now is, and [localStorage], whose
    [setItem] throws when the quota is exceeded. *)
Record Browser := {
  defaultArray : list Animation;
  savedConfig : option StoredConfig;
  savedImage : option string;
  quotaExceeded : bool
}.

Record SpriteConfig := {
  config : ConfigObject;
  spritesheetData : option string
}.

(** The page as it is loaded. *)
Definition freshBrowser (savedConfig' : option StoredConfig)
    (savedImage' : option string) (quotaExceeded' : bool) : Browser :=
  {| defaultArray := animations DEFAULT_ANIMATION_CONFIG;
     savedConfig := savedConfig';
     savedImage := savedImage';
     quotaExceeded := quotaExceeded' |}.

(** [{ ...DEFAULT_ANIMATION_CONFIG }] *)
Definition spreadDefault : ConfigObject :=
  {| cfg_frameWidth := frameWidth DEFAULT_ANIMATION_CONFIG;
     cfg_frameHeight := frameHeight DEFAULT_ANIMATION_CONFIG;
     cfg_animations := DefaultArray |}.

(** [saved ? JSON.parse(saved) : null], and [null] when that throws. *)
Definition loadConfig (b : Browser) : option ConfigObject :=
  match savedConfig b with
  | Some (JsonConfig fw fh anims) =>
      Some {| cfg_frameWidth := fw; cfg_frameHeight := fh;
              cfg_animations := OwnArray anims |}
  | Some (NotJson _) => None
  | None => None
  end.

Definition loadSpritesheetData (b : Browser) : option string := savedImage b.

(** [this.config = this.loadConfig() || { ...DEFAULT_ANIMATION_CONFIG }] *)
Definition constructor (b : Browser) : SpriteConfig :=
  {| config := default spreadDefault (loadConfig b);
     spritesheetData := loadSpritesheetData b |}.

(** The array [this.config.animations] refers to, as it now is. *)
Definition animationsOf (this : SpriteConfig) (b : Browser)
  : list Animation :=
  match cfg_animations (config this) with
  | DefaultArray => defaultArray b
  | OwnArray contents => contents
  end.

Definition updateAnimation (action' direction' : string) (updates : Updates)
    (s : SpriteConfig * Browser) : SpriteConfig * Browser :=
  let '(this, b) := s in
  match cfg_animations (config this) with
  | DefaultArray =>
      (this,
       {| defaultArray :=
            SpriteConfig.updateAnimation (defaultArray b) action' direction'
              updates;
          savedConfig := savedConfig b;
          savedImage := savedImage b;
          quotaExceeded := quotaExceeded b |})
  | OwnArray contents =>
      ({| config :=
            {| cfg_frameWidth := cfg_frameWidth (config this);
               cfg_frameHeight := cfg_frameHeight (config this);
               cfg_animations :=
                 OwnArray
                   (SpriteConfig.updateAnimation contents action' direction'
                      updates) |};
          spritesheetData := spritesheetData this |},
       b)
  end.

Definition getAnimation (this : SpriteConfig) (b : Browser)
    (action' direction' : string) : option Animation :=
  SpriteConfig.getAnimation (animationsOf this b) action' direction'.

(** [saveConfig] of a configuration whose numbers are integers: [true]
    and the item written, or [false] when [setItem] throws. *)
Definition saveConfig (s : SpriteConfig * Browser)
  : bool * (SpriteConfig * Browser) :=
  let '(this, b) := s in
  if quotaExceeded b then (false, (this, b))
  else
    (true,
     (this,
      {| defaultArray := defaultArray b;
         savedConfig :=
           Some (JsonConfig (cfg_frameWidth (config this))
                   (cfg_frameHeight (config this)) (animationsOf this b));
         savedImage := savedImage b;
         quotaExceeded := quotaExceeded b |})).

(** [saveSpritesheetData(dataUrl)] *)
Definition saveSpritesheetData (dataUrl : string)
    (s : SpriteConfig * Browser) : bool * (SpriteConfig * Browser) :=
  let '(this, b) := s in
  if quotaExceeded b then (false, (this, b))
  else
    (true,
     ({| config := config this; spritesheetData := Some dataUrl |},
      {| defaultArray := defaultArray b;
         savedConfig := savedConfig b;
         savedImage := Some dataUrl;
         quotaExceeded := quotaExceeded b |})).

(** [reset] *)
Definition reset (s : SpriteConfig * Browser) : SpriteConfig * Browser :=
  let '(this, b) := s in
  ({| config := spreadDefault; spritesheetData := None |},
   {| defaultArray := defaultArray b;
      savedConfig := None;
      savedImage := None;
      quotaExceeded := quotaExceeded b |}).

(** [!!this.spritesheetData]: the empty string counts as none. *)
Definition hasCustomSpritesheet (this : SpriteConfig) : bool :=
  match spritesheetData this with
  | Some data => negb (bool_decide (data = ""))
  | None => false
  end.

(** A sequence of [updateAnimation] calls. *)
Definition updateAll (calls : list (string * string * Updates))
    (s : SpriteConfig * Browser) : SpriteConfig * Browser :=
  foldl (λ s c, updateAnimation c.1.1 c.1.2 c.2 s) s calls.

(** The same calls on a plain table. *)
Definition updateTable (calls : list (string * string * Updates))
    (t : list Animation) : list Animation :=
  foldl (λ t c, SpriteConfig.updateAnimation t c.1.1 c.1.2 c.2) t calls.

End SpriteConfigStore.

(** ** SpriteEditor.js: the form and the preview *)

Module SpriteEditor.

Import SpriteConfig.

(** The class of an input of the animation list. *)
Inductive InputClass := AnimRow | AnimFrames | AnimFps.

#[global] Instance InputClass_eq_dec : EqDecision InputClass.
Proof. solve_decision. Defined.

(** An input of the list: its [data-action], [data-direction], class and
    the integer [parseInt] reads from its value.  An input from whose
    value [parseInt] reads no integer (NaN) is outside the model. *)
Record FormInput := {
  in_action : string;
  in_direction : string;
  in_class : InputClass;
  in_value : Z
}.

Definition onlyRow (v : Z) : Updates :=
  {| u_action := None; u_direction := None; u_row := Some v;
     u_startFrame := None; u_frameCount := None; u_frameRate := None |}.

Definition onlyFrameCount (v : Z) : Updates :=
  {| u_action := None; u_direction := None; u_row := None;
     u_startFrame := None; u_frameCount := Some v; u_frameRate := None |}.

Definition onlyFrameRate (v : Z) : Updates :=
  {| u_action := None; u_direction := None; u_row := None;
     u_startFrame := None; u_frameCount := None; u_frameRate := Some v |}.

(** [handleAnimationChange], and the body of the loop of
    [saveConfiguration]. *)
Definition handleAnimationChange (t : list Animation) (i : FormInput)
  : list Animation :=
  match in_class i with
  | AnimRow =>
      updateAnimation t (in_action i) (in_direction i) (onlyRow (in_value i))
  | AnimFrames =>
      updateAnimation t (in_action i) (in_direction i)
        (onlyFrameCount (in_value i))
  | AnimFps =>
      updateAnimation t (in_action i) (in_direction i)
        (onlyFrameRate (in_value i))
  end.

(** The update object the call for an input carries. *)
Definition updatesOf (i : FormInput) : Updates :=
  match in_class i with
  | AnimRow => onlyRow (in_value i)
  | AnimFrames => onlyFrameCount (in_value i)
  | AnimFps => onlyFrameRate (in_value i)
  end.

(** The loop of [saveConfiguration] over the inputs, in document order. *)
Definition saveInputs (t : list Animation) (inputs : list FormInput)
  : list Animation :=
  foldl handleAnimationChange t inputs.

(** What identifies an input of the list. *)
Definition inputKey (i : FormInput) : string * string * InputClass :=
  (in_action i, in_direction i, in_class i).

(** The property of an animation an input of that class shows. *)
Definition shown (c : InputClass) (a : Animation) : Z :=
  match c with
  | AnimRow => row a
  | AnimFrames => frameCount a
  | AnimFps => frameRate a
  end.









(** The fields of a [SpriteEditor] that [saveConfiguration] and
    [renderPreviewFrame] read and write: the loaded image ([None] is
    [null], its value until [loadImage] or [loadSavedSpritesheet] has
    loaded one), the selection and the counter of the preview ([None] is
    [NaN]), and [this.config.config]. *)
Record Editor := {
  image : option string;
  previewAction : string;
  previewDirection : string;
  previewFrame : option Z;
  config : Config
}.

(** The editor as its constructor leaves it, for a configuration. *)
Definition newEditor (config' : Config) : Editor :=
  {| image := None; previewAction := "idle"; previewDirection := "down";
     previewFrame := Some 0; config := config' |}.

(** [img.onload]: [this.image = img]. *)
Definition withImage (img : string) (this : Editor) : Editor :=
  {| image := Some img; previewAction := previewAction this;
     previewDirection := previewDirection this;
     previewFrame := previewFrame this; config := config this |}.

(** The editor after [this.config.config.animations] has become [t]. *)
Definition withAnimations (t : list Animation) (this : Editor) : Editor :=
  {| image := image this; previewAction := previewAction this;
     previewDirection := previewDirection this;
     previewFrame := previewFrame this;
     config := {| frameWidth := frameWidth (config this);
                  frameHeight := frameHeight (config this);
                  animations := t |} |}.

Definition withPreviewFrame (f : option Z) (this : Editor) : Editor :=
  {| image := image this; previewAction := previewAction this;
     previewDirection := previewDirection this;
     previewFrame := f; config := config this |}.



(** The preview counter: [(this.previewFrame + 1) % anim.frameCount].
    [None] is [NaN], which is what [%] gives for a zero divisor and what
    arithmetic on [NaN] gives. *)
Definition nextPreviewFrame (previewFrame : option Z) (frameCount' : Z)
  : option Z :=
  match previewFrame with
  | Some f =>
      if bool_decide (frameCount' = 0) then None
      else Some (Z.rem (f + 1) frameCount')
  | None => None
  end.

(** [sx] and [sy] of [renderPreviewFrame]. *)
Definition previewSource (anim : Animation) (fw fh previewFrame : Z)
  : Z * Z :=
  ((startFrame anim + previewFrame) * fw, row anim * fh).

(** What one [renderPreviewFrame] puts on the preview canvas: the
    placeholder text, nothing, or the frame of the sheet at ([sx], [sy]),
    where [None] is a [NaN] counter. *)
Inductive Preview :=
  | Placeholder
  | Untouched
  | SheetFrame (source : option (Z * Z)).

(** [renderPreviewFrame]: it returns before advancing the counter when no
    image is loaded and when the selected animation is not in the
    table.  The scaling of the frame on the preview canvas is left
    out. *)
Definition renderPreviewFrame (this : Editor) : Editor * Preview :=
  match image this with
  | None => (this, Placeholder)
  | Some _ =>
      match getAnimation (animations (config this)) (previewAction this)
              (previewDirection this) with
      | None => (this, Untouched)
      | Some anim =>
          let fw := frameWidth (config this) in
          let fh := frameHeight (config this) in
          let f := nextPreviewFrame (previewFrame this) (frameCount anim) in
          (withPreviewFrame f this,
           SheetFrame (previewSource anim fw fh <$> f))
      end
  end.

(** [n] ticks of the preview timer with nothing else in between. *)
Fixpoint previewTicks (n : nat) (this : Editor) : Editor :=
  match n with
  | O => this
  | S n' => previewTicks n' (renderPreviewFrame this).1
  end.

End SpriteEditor.

(** * Properties *)

(** ** The animation selector *)

Section Selector.

Import Player.

Lemma updateAnimation_state this left right up down isRunning :
  let after := updateAnimation this left right up down isRunning in
  currentState after = newState left right up down isRunning
  ∧ currentDirection after = newDirection this left right up down.
Proof.
  unfold updateAnimation, changed.
  destruct (bool_decide_reflect
              (newState left right up down isRunning = currentState this));
    destruct (bool_decide_reflect
              (newDirection this left right up down = currentDirection this));
    simpl; auto.
Qed.

Lemma signalled_play this ns nd :
  signalled this
    {| currentState := ns; currentDirection := nd;
       isMoving := isMoving this;
       sprite := play (animationKey ns nd) (sprite this) |}
  = [animationKey ns nd].
Proof. unfold signalled, play. simpl. apply drop_app_length. Qed.

Lemma signalled_same this : signalled this this = [].
Proof. unfold signalled. apply drop_all. Qed.

Lemma newDirection_stable this left right up down isRunning :
  newDirection (updateAnimation this left right up down isRunning)
    left right up down
  = newDirection this left right up down.
Proof.
  pose proof (updateAnimation_state this left right up down isRunning)
    as [_ Hd]; simpl in Hd.
  unfold newDirection at 1. rewrite Hd.
  unfold newDirection.
  destruct left, right, up, down; reflexivity.
Qed.

(** C1. Direction resolution: the resolved direction is the first set
    flag in the order left, right, up, down, and the previous direction
    when no flag is set; this is also the direction stored after the
    call.  In particular left, up and down together resolve to left. *)
Theorem direction_resolution (this : Player)
    (left right up down isRunning : bool) :
  newDirection this left right up down
  = default (currentDirection this) (firstSet (priority left right up down))
  ∧ currentDirection (updateAnimation this left right up down isRunning)
    = newDirection this left right up down
  ∧ newDirection this true false true true = Left.
Proof.
  split; [| split].
  - destruct left, right, up, down; reflexivity.
  - apply updateAnimation_state.
  - reflexivity.
Qed.

(** C2. Action resolution: idle when no direction flag is set, whatever
    the running modifier; otherwise run when running and walk when not.
    This is also the action stored after the call. *)
Theorem action_resolution (this : Player)
    (left right up down isRunning : bool) :
  (left = false ∧ right = false ∧ up = false ∧ down = false →
     newState left right up down isRunning = Idle)
  ∧ (left = true ∨ right = true ∨ up = true ∨ down = true →
     newState left right up down isRunning
     = if isRunning then Run else Walk)
  ∧ currentState (updateAnimation this left right up down isRunning)
    = newState left right up down isRunning.
Proof.
  split; [| split].
  - intros (-> & -> & -> & ->). reflexivity.
  - destruct left, right, up, down; try reflexivity.
    intros [H | [H | [H | H]]]; discriminate H.
  - apply updateAnimation_state.
Qed.

Lemma action_resolution_witness :
  newState false false false false true = Idle
  ∧ newState false true false false true = Run.
Proof.
  destruct (action_resolution constructor false false false false true)
    as (Hidle & _ & _).
  destruct (action_resolution constructor false true false false true)
    as (_ & Hrun & _).
  split.
  - apply Hidle. repeat split; reflexivity.
  - apply Hrun. right. left. reflexivity.
Defined.

(** C3. Change detection: the selector plays the clip
    "{newAction}-{newDirection}" and stores the new pair exactly when
    that pair differs from the stored one; when they are equal it leaves
    the player as it is and plays nothing; and a second call with the
    same input plays nothing. *)
Theorem change_detection (this : Player)
    (left right up down isRunning : bool) :
  let ns := newState left right up down isRunning in
  let nd := newDirection this left right up down in
  let after := updateAnimation this left right up down isRunning in
  ((ns, nd) ≠ (currentState this, currentDirection this) →
     signalled this after
     = [(actionName ns ++ "-" ++ directionName nd)%string]
     ∧ currentState after = ns ∧ currentDirection after = nd)
  ∧ ((ns, nd) = (currentState this, currentDirection this) →
     after = this ∧ signalled this after = [])
  ∧ signalled after (updateAnimation after left right up down isRunning)
    = [].
Proof.
  intros ns nd after.
  assert (Hcases :
    (changed this ns nd = true
     ∧ (ns, nd) ≠ (currentState this, currentDirection this))
    ∨ (changed this ns nd = false
       ∧ (ns, nd) = (currentState this, currentDirection this))).
  { unfold changed.
    destruct (bool_decide_reflect (ns = currentState this)) as [-> |];
      destruct (bool_decide_reflect (nd = currentDirection this)) as [-> |];
      simpl; [right | left ..]; split; congruence. }
  split; [| split].
  - intros Hne. destruct Hcases as [[Hc _] | [_ Heq]]; [| contradiction].
    subst after. unfold updateAnimation. fold ns nd. rewrite Hc.
    split; [apply signalled_play | split; reflexivity].
  - intros Heq. destruct Hcases as [[_ Hne] | [Hc _]]; [contradiction |].
    subst after. unfold updateAnimation. fold ns nd. rewrite Hc.
    split; [reflexivity | apply signalled_same].
  - assert (Hfix : updateAnimation after left right up down isRunning
                   = after).
    { pose proof (updateAnimation_state this left right up down isRunning)
        as [Hs Hd]; simpl in Hs, Hd. fold after in Hs, Hd.
      unfold updateAnimation at 1. subst after.
      rewrite newDirection_stable.
      unfold changed. rewrite Hs, Hd.
      rewrite !bool_decide_eq_true_2 by reflexivity. reflexivity. }
    rewrite Hfix. apply signalled_same.
Qed.

Lemma change_detection_witness :
  signalled constructor
    (updateAnimation constructor false true false false false)
  = ["walk-right"].
Proof.
  destruct (change_detection constructor false true false false false)
    as (Hswitch & _ & _).
  apply Hswitch. intros E. vm_compute in E. discriminate E.
Defined.

End Selector.

(** ** Pose offsets and leg positions *)

Section Poses.

Import SpriteGenerator.

(** The two drivers compute the same offset for every action and frame. *)
Lemma offsetY_generator (action : Action) (frame : Z) :
  GameScene.offsetY action frame
  = match action with
    | Idle => breathOffset frame
    | _ => bounceOffset action frame
    end.
Proof. destruct action; reflexivity. Qed.


Lemma rowLayout_frameCount :
  Forall (λ '(r, a, d, n), n = frameCount a) rowLayout.
Proof. unfold rowLayout. repeat constructor. Qed.




(** [walkCycle[frame] || walkCycle[0]] is always an entry of the cycle. *)
Lemma positions_defined (frame : Z) :
  or_else (arrayGet walkCycle frame) (arrayGet walkCycle 0)
  = arrayGet walkCycle (if bool_decide (0 ≤ frame < 6) then frame else 0).
Proof.
  case_bool_decide as Hr.
  - assert (Hc : frame = 0 ∨ frame = 1 ∨ frame = 2 ∨ frame = 3
                 ∨ frame = 4 ∨ frame = 5) by lia.
    destruct Hc as [-> | [-> | [-> | [-> | [-> | ->]]]]]; reflexivity.
  - unfold arrayGet at 1. case_bool_decide as Hn; [| reflexivity].
    rewrite (lookup_ge_None_2 walkCycle); [reflexivity |].
    simpl. lia.
Qed.

Lemma arrayGet_walkCycle_in_range (i : Z) :
  0 ≤ i < 6 → is_Some (arrayGet walkCycle i).
Proof.
  intros Hi.
  assert (Hc : i = 0 ∨ i = 1 ∨ i = 2 ∨ i = 3 ∨ i = 4 ∨ i = 5) by lia.
  destruct Hc as [-> | [-> | [-> | [-> | [-> | ->]]]]]; eexists; reflexivity.
Qed.

(** What [calculateLegPositions] returns, for every action and frame. *)
Lemma calculateLegPositions_cases (action : Action) (frame : Z) :
  ∃ p,
    arrayGet walkCycle (if bool_decide (0 ≤ frame < 6) then frame else 0)
    = Some p
    ∧ calculateLegPositions action frame
      = Normal
          match action with
          | Idle => {| leftX := -2; rightX := 2; leftY := 0; rightY := 0 |}
          | Walk => p
          | Run => {| leftX := Number_multiply (leftX p) 1.3;
                      rightX := Number_multiply (rightX p) 1.3;
                      leftY := Number_multiply (leftY p) 1.5;
                      rightY := Number_multiply (rightY p) 1.5 |}
          end%Q.
Proof.
  destruct (arrayGet_walkCycle_in_range
              (if bool_decide (0 ≤ frame < 6) then frame else 0)) as [p Hp].
  { case_bool_decide; lia. }
  exists p. split; [exact Hp |].
  destruct action; unfold calculateLegPositions; simpl;
    rewrite ?positions_defined, ?Hp; reflexivity.
Qed.

Lemma calculateLegPositions_returns (action : Action) (frame : Z) :
  ∃ p, calculateLegPositions action frame = Normal p.
Proof.
  destruct (calculateLegPositions_cases action frame) as (p & _ & H).
  eexists. exact H.
Qed.

Lemma arrayGet_elem_of {A} (array : list A) (i : Z) (x : A) :
  arrayGet array i = Some x → x ∈ array.
Proof.
  unfold arrayGet. case_bool_decide; [| discriminate].
  apply list_elem_of_lookup_2.
Qed.

(** The double nearest to 13 / 10 and the double 3 / 2, which is exact. *)
Lemma literals :
  Number_ofQ 1.3 = S754_finite false 5854679515581645 (-52)
  ∧ Number_ofQ 1.5 = S754_finite false 6755399441055744 (-52).
Proof. split; reflexivity. Qed.

(** No product of [calculateLegPositions] overflows or is a NaN. *)
Lemma leg_products_finite (p : LegPositions) :
  p ∈ walkCycle →
  Forall (λ x, finite x = true)
    [ SFmul prec emax (Number_ofQ (leftX p)) (Number_ofQ 1.3);
      SFmul prec emax (Number_ofQ (rightX p)) (Number_ofQ 1.3);
      SFmul prec emax (Number_ofQ (leftY p)) (Number_ofQ 1.5);
      SFmul prec emax (Number_ofQ (rightY p)) (Number_ofQ 1.5) ].
Proof.
  unfold walkCycle. intros Hin.
  repeat (apply elem_of_cons in Hin as [-> | Hin]);
    [.. | apply elem_of_nil in Hin; contradiction];
    repeat constructor.
Qed.

(** How far the products are from the rational ones: the vertical ones
    are exact, the horizontal ones within 2^-51. *)
Lemma leg_products_accuracy (p : LegPositions) :
  p ∈ walkCycle →
  (Number_multiply (leftY p) 1.5 == leftY p * 1.5
   ∧ Number_multiply (rightY p) 1.5 == rightY p * 1.5
   ∧ Qabs (Number_multiply (leftX p) 1.3 - leftX p * 1.3) <= 2 ^ (-51)
   ∧ Qabs (Number_multiply (rightX p) 1.3 - rightX p * 1.3) <= 2 ^ (-51))%Q.
Proof.
  unfold walkCycle. intros Hin.
  repeat (apply elem_of_cons in Hin as [-> | Hin]);
    [.. | apply elem_of_nil in Hin; contradiction];
    (split; [reflexivity |]; split; [reflexivity |];
     split; apply Qle_bool_iff; reflexivity).
Qed.

(** The run cycle as the doubles it is made of: 2.6, 3.9000000000000004,
    5.2, 1.3 sideways and 1.5 up and down.  3 × 1.3 is not 39 / 10. *)
Lemma run_cycle :
  calculateLegPositions Run <$> [0; 1; 2; 3; 4; 5]
  = Normal
    <$> [ {| leftX := -5854679515581645 # 2251799813685248;
             rightX := 5854679515581645 # 2251799813685248;
             leftY := 0; rightY := 0 |};
          {| leftX := -2195504818343117 # 562949953421312;
             rightX := 2195504818343117 # 562949953421312;
             leftY := -3 # 2; rightY := 3 # 2 |};
          {| leftX := -5854679515581645 # 1125899906842624;
             rightX := 5854679515581645 # 1125899906842624;
             leftY := 0; rightY := 0 |};
          {| leftX := -5854679515581645 # 2251799813685248;
             rightX := 5854679515581645 # 2251799813685248;
             leftY := 0; rightY := 0 |};
          {| leftX := -5854679515581645 # 4503599627370496;
             rightX := 5854679515581645 # 4503599627370496;
             leftY := 3 # 2; rightY := -3 # 2 |};
          {| leftX := -5854679515581645 # 1125899906842624;
             rightX := 5854679515581645 # 1125899906842624;
             leftY := 0; rightY := 0 |} ]%Q
  ∧ ¬ (-2195504818343117 # 562949953421312 == -3 * 1.3)%Q.
Proof. split; [reflexivity | discriminate]. Qed.

(** C5, as amended. For every frame index f the walk offsets are the
    entry of the six-entry cycle at f mod 6 when 0 ≤ f < 6 and entry 0
    otherwise; the run offsets are the products, in doubles, of those
    with 1.3 horizontally and 1.5 vertically: the vertical ones are
    exactly 1.5 times the walk offsets, the horizontal ones within 2^-51
    of 1.3 times them; the idle result is the neutral stance, whatever
    f. *)
Theorem leg_positions (f : Z) :
  ∃ p r,
    arrayGet walkCycle (if bool_decide (0 ≤ f < 6) then f `mod` 6 else 0)
    = Some p
    ∧ calculateLegPositions Walk f = Normal p
    ∧ calculateLegPositions Run f = Normal r
    ∧ leftX r = Number_multiply (leftX p) 1.3
    ∧ rightX r = Number_multiply (rightX p) 1.3
    ∧ leftY r = Number_multiply (leftY p) 1.5
    ∧ rightY r = Number_multiply (rightY p) 1.5
    ∧ (leftY r == leftY p * 1.5 ∧ rightY r == rightY p * 1.5
       ∧ Qabs (leftX r - leftX p * 1.3) <= 2 ^ (-51)
       ∧ Qabs (rightX r - rightX p * 1.3) <= 2 ^ (-51))%Q
    ∧ calculateLegPositions Idle f
      = Normal {| leftX := -2; rightX := 2; leftY := 0; rightY := 0 |}%Q.
Proof.
  destruct (calculateLegPositions_cases Walk f) as (p & Hp & Hw).
  destruct (calculateLegPositions_cases Run f) as (p' & Hp' & Hr).
  assert (p' = p) as -> by congruence.
  destruct (calculateLegPositions_cases Idle f) as (_ & _ & Hi).
  pose proof (leg_products_accuracy p (arrayGet_elem_of _ _ _ Hp)) as Hacc.
  exists p. eexists. split.
  { rewrite <- Hp. case_bool_decide; [| reflexivity].
    rewrite Z.mod_small by lia. reflexivity. }
  split; [exact Hw |]. split; [exact Hr |].
  repeat (split; [reflexivity |]). split; [exact Hacc | exact Hi].
Qed.

(** C5 as stated fails past the cycle: at frame 7 the code answers with
    entry 0, not with entry 7 mod 6 = 1. *)
Lemma seventh_frame_not_cyclic :
  arrayGet walkCycle (7 `mod` 6)
  = Some {| leftX := -3; rightX := 3; leftY := -1; rightY := 1 |}%Q
  ∧ calculateLegPositions Walk 7
    = Normal {| leftX := -2; rightX := 2; leftY := 0; rightY := 0 |}%Q
  ∧ calculateLegPositions Walk 7 ≠ deref (arrayGet walkCycle (7 `mod` 6)).
Proof. split; [| split]; [reflexivity | reflexivity |]. vm_compute. discriminate. Qed.

End Poses.

(** ** Drawing: what a frame depends on *)

Section Drawing.

Import SpriteGenerator.

Lemma appends_skip : appends (λ w, w) [].
Proof. intros w. rewrite app_nil_r. auto. Qed.

Lemma appends_comp (f g : World → World) (ps qs : list DrawOp) :
  appends f ps → appends g qs → appends (λ w, g (f w)) (ps ++ qs).
Proof.
  intros Hf Hg w.
  destruct (Hf w) as (Ho & Hw & Hh & Hs & Hu).
  destruct (Hg (f w)) as (Ho' & Hw' & Hh' & Hs' & Hu').
  rewrite Ho', Ho, Hw', Hh', Hs', Hu', app_assoc. auto.
Qed.

Lemma appends_drawPixelRect (x y wd ht : Q) (color : string) :
  appends (drawPixelRect x y wd ht color)
    [FillRect color (Math_floor x) (Math_floor y) wd ht].
Proof. intros w. simpl. auto. Qed.

Lemma appends_drawPixel (x y : Q) (color : string) :
  appends (drawPixel x y color)
    [FillRect color (Math_floor x) (Math_floor y) 1 1].
Proof. intros w. simpl. auto. Qed.

Lemma oblivious_skip : oblivious (λ w, w).
Proof. eexists. apply appends_skip. Qed.

Lemma oblivious_comp (f g : World → World) :
  oblivious f → oblivious g → oblivious (λ w, g (f w)).
Proof. intros [ps Hf] [qs Hg]. eexists. eapply appends_comp; eassumption. Qed.

Lemma oblivious_drawPixelRect x y wd ht color :
  oblivious (drawPixelRect x y wd ht color).
Proof. eexists. apply appends_drawPixelRect. Qed.

Lemma oblivious_drawPixel x y color : oblivious (drawPixel x y color).
Proof. eexists. apply appends_drawPixel. Qed.

(** A body part is a fixed sequence of rectangles and pixels once the
    conditions on the direction are decided. *)
Ltac rectangles :=
  repeat case_bool_decide; simpl;
  repeat first
    [ apply oblivious_drawPixelRect
    | apply oblivious_drawPixel
    | apply oblivious_skip
    | apply oblivious_comp ].

Lemma oblivious_drawLegs this centerX baseY direction positions :
  oblivious (drawLegs this centerX baseY direction positions).
Proof. unfold drawLegs. rectangles. Qed.

Lemma oblivious_drawBody this centerX baseY direction :
  oblivious (drawBody this centerX baseY direction).
Proof. unfold drawBody. rectangles. Qed.

Lemma oblivious_drawHead this centerX baseY direction :
  oblivious (drawHead this centerX baseY direction).
Proof. unfold drawHead. rectangles. Qed.

Lemma oblivious_drawFace this centerX baseY :
  oblivious (drawFace this centerX baseY).
Proof. unfold drawFace. rectangles. Qed.

Lemma oblivious_drawFaceSide this centerX baseY direction :
  oblivious (drawFaceSide this centerX baseY direction).
Proof. unfold drawFaceSide. rectangles. Qed.

Lemma oblivious_drawHairFront this centerX baseY :
  oblivious (drawHairFront this centerX baseY).
Proof. unfold drawHairFront. rectangles. Qed.

Lemma oblivious_drawHairBack this centerX baseY :
  oblivious (drawHairBack this centerX baseY).
Proof. unfold drawHairBack. rectangles. Qed.

Lemma oblivious_drawHairSide this centerX baseY direction :
  oblivious (drawHairSide this centerX baseY direction).
Proof. unfold drawHairSide. rectangles. Qed.

Variable Math_sin : Q → Q.
Variable Math_PI : Q.

Lemma oblivious_drawArms this centerX baseY direction action frame :
  oblivious
    (drawArms Math_sin Math_PI this centerX baseY direction action frame).
Proof. unfold drawArms. rectangles. Qed.


Lemma draws_oblivious (f : World → World) : draws f → oblivious f.
Proof. intros (ps & _ & H). exists ps. exact H. Qed.

Lemma draws_then (f g : World → World) :
  draws f → oblivious g → draws (λ w, g (f w)).
Proof.
  intros (ps & Hne & Hf) [qs Hg]. exists (ps ++ qs). split.
  - destruct ps; [contradiction | discriminate].
  - apply appends_comp; assumption.
Qed.

Lemma draws_drawPixelRect x y wd ht color :
  draws (drawPixelRect x y wd ht color).
Proof. eexists. split; [| apply appends_drawPixelRect]. discriminate. Qed.

Lemma draws_drawLegs this centerX baseY direction positions :
  draws (drawLegs this centerX baseY direction positions).
Proof.
  unfold drawLegs. repeat case_bool_decide; simpl;
    repeat first
      [ apply draws_drawPixelRect
      | apply draws_then; [| apply oblivious_drawPixelRect] ].
Qed.

(** [drawCharacter] never throws, draws at least the legs, and what it
    draws is fixed by its arguments. *)
Lemma drawCharacter_draws this x y direction action frame offsetY :
  ∃ g, draws g
       ∧ ∀ w, drawCharacter Math_sin Math_PI this x y direction action
                frame offsetY w = Normal (g w).
Proof.
  destruct (calculateLegPositions_returns action frame) as [p Hp].
  unfold drawCharacter. rewrite Hp. simpl.
  set (centerX := (x + inject_Z (frameWidth this) / 2)%Q).
  set (baseY := (y + inject_Z (frameHeight this) - 4 + offsetY)%Q).
  pose proof (draws_drawLegs this centerX baseY direction p) as Hlegs.
  repeat case_bool_decide.
  - eexists. split; [| intros w; reflexivity].
    apply (draws_then _ (drawHairBack this centerX baseY));
      [| apply oblivious_drawHairBack].
    apply (draws_then _ (drawHead this centerX baseY direction));
      [| apply oblivious_drawHead].
    apply (draws_then _ (drawBody this centerX baseY direction));
      [| apply oblivious_drawBody].
    exact Hlegs.
  - eexists. split; [| intros w; reflexivity].
    apply (draws_then _ (drawHairFront this centerX baseY));
      [| apply oblivious_drawHairFront].
    apply (draws_then _ (drawFace this centerX baseY));
      [| apply oblivious_drawFace].
    apply (draws_then _ (drawHead this centerX baseY direction));
      [| apply oblivious_drawHead].
    apply (draws_then _ (drawBody this centerX baseY direction));
      [| apply oblivious_drawBody].
    exact Hlegs.
  - eexists. split; [| intros w; reflexivity].
    apply (draws_then _ (drawHairSide this centerX baseY direction));
      [| apply oblivious_drawHairSide].
    apply (draws_then _ (drawFaceSide this centerX baseY direction));
      [| apply oblivious_drawFaceSide].
    apply (draws_then _ (drawHead this centerX baseY direction));
      [| apply oblivious_drawHead].
    apply (draws_then _
             (drawArms Math_sin Math_PI this centerX baseY direction
                action frame));
      [| apply oblivious_drawArms].
    apply (draws_then _ (drawBody this centerX baseY direction));
      [| apply oblivious_drawBody].
    exact Hlegs.
Qed.

Lemma perform_oblivious this c :
  obliviousCall (perform Math_sin Math_PI this c).
Proof.
  unfold perform.
  destruct (drawCharacter_draws this (inject_Z (call_x c))
              (inject_Z (call_y c)) (call_direction c) (call_action c)
              (call_frame c) (inject_Z (call_offsetY c))) as (g & Hg & Heq).
  exists g. split; [apply draws_oblivious, Hg | exact Heq].
Qed.

Lemma forEach_oblivious {A} (body : A → World → Completion World)
    (l : list A) :
  (∀ x, obliviousCall (body x)) → obliviousCall (forEach body l).
Proof.
  intros Hbody. induction l as [| x l IH].
  - exists (λ w, w). split; [apply oblivious_skip | reflexivity].
  - destruct (Hbody x) as (g & Hg & Hx).
    destruct IH as (h & Hh & Hl).
    exists (λ w, h (g w)). split; [apply oblivious_comp; assumption |].
    intros w. simpl. rewrite Hx. simpl. apply Hl.
Qed.

Lemma emitted_appends (f : World → World) (ps : list DrawOp) (w : World) :
  appends f ps → emitted w (f w) = ps.
Proof.
  intros Hf. unfold emitted. destruct (Hf w) as (-> & _).
  apply drop_app_length.
Qed.

(** One [generateSpritesheet] returns a sheet whose size and content are
    fixed by the generator alone. *)
Lemma generateSpritesheet_sheet this :
  ∃ drawn, ∀ w,
    ∃ sheet,
      generateSpritesheet Math_sin Math_PI this w = Normal sheet
      ∧ ops (canvas sheet) = drawn
      ∧ width (canvas sheet) = frameWidth this * framesPerRow this
      ∧ height (canvas sheet) = frameHeight this * totalRows this
      ∧ randomUsed sheet = randomUsed w.
Proof.
  destruct (forEach_oblivious (perform Math_sin Math_PI this)
              (idleCalls this) (perform_oblivious this))
    as (gi & [pi Hi] & Ei).
  destruct (forEach_oblivious (perform Math_sin Math_PI this)
              (walkCalls this) (perform_oblivious this))
    as (gw & [pw Hw] & Ew).
  destruct (forEach_oblivious (perform Math_sin Math_PI this)
              (runCalls this) (perform_oblivious this))
    as (gr & [pr Hr] & Er).
  eexists. intros w. eexists.
  unfold generateSpritesheet, generateIdleAnimations,
    generateWalkAnimations, generateRunAnimations.
  rewrite Ei. cbn [mbind Completion_bind].
  rewrite Ew. cbn [mbind Completion_bind]. rewrite Er.
  split; [reflexivity |].
  match goal with
  | |- context [gr (gw (gi ?w0))] =>
      destruct (Hi w0) as (Oi & Wi & Hti & _ & Ui);
      destruct (Hw (gi w0)) as (Ow & Ww & Htw & _ & Uw);
      destruct (Hr (gw (gi w0))) as (Or & Wr & Htr & _ & Ur)
  end.
  rewrite Or, Ow, Oi, Wr, Ww, Wi, Htr, Htw, Hti, Ur, Uw, Ui. simpl.
  split; [reflexivity | auto].
Qed.

End Drawing.

(** ** Drawing: where the parts of a frame lie *)

Section Extent.

Import SpriteGenerator.

Lemma confined_skip x0 y0 x1 y1 : confined x0 y0 x1 y1 (λ w, w).
Proof. exists []. split; [apply appends_skip | constructor]. Qed.

Lemma confined_comp x0 y0 x1 y1 (f g : World → World) :
  confined x0 y0 x1 y1 f → confined x0 y0 x1 y1 g →
  confined x0 y0 x1 y1 (λ w, g (f w)).
Proof.
  intros (ps & Hf & Hps) (qs & Hg & Hqs). exists (ps ++ qs). split.
  - apply appends_comp; assumption.
  - apply Forall_app. split; assumption.
Qed.

Lemma inBox_floor x0 y0 x1 y1 (x y wd ht : Q) (color : string) :
  (inject_Z x0 <= x)%Q → (x + wd <= inject_Z x1)%Q →
  (inject_Z y0 <= y)%Q → (y + ht <= inject_Z y1)%Q →
  inBox x0 y0 x1 y1 (FillRect color (Math_floor x) (Math_floor y) wd ht).
Proof.
  intros Hx0 Hx1 Hy0 Hy1. unfold inBox, Math_floor.
  pose proof (Qfloor_le x) as Fx. pose proof (Qfloor_le y) as Fy.
  apply Qfloor_resp_le in Hx0. rewrite Qfloor_Z in Hx0.
  apply Qfloor_resp_le in Hy0. rewrite Qfloor_Z in Hy0.
  rewrite Zle_Qle in Hx0, Hy0.
  repeat split; lra.
Qed.

Lemma confined_drawPixelRect x0 y0 x1 y1 (x y wd ht : Q) (color : string) :
  (inject_Z x0 <= x)%Q → (x + wd <= inject_Z x1)%Q →
  (inject_Z y0 <= y)%Q → (y + ht <= inject_Z y1)%Q →
  confined x0 y0 x1 y1 (drawPixelRect x y wd ht color).
Proof.
  intros. eexists. split; [apply appends_drawPixelRect |].
  constructor; [| constructor]. apply inBox_floor; assumption.
Qed.

Lemma confined_drawPixel x0 y0 x1 y1 (x y : Q) (color : string) :
  (inject_Z x0 <= x)%Q → (x + 1 <= inject_Z x1)%Q →
  (inject_Z y0 <= y)%Q → (y + 1 <= inject_Z y1)%Q →
  confined x0 y0 x1 y1 (drawPixel x y color).
Proof.
  intros. eexists. split; [apply appends_drawPixel |].
  constructor; [| constructor]. apply inBox_floor; assumption.
Qed.


(** The bounds of the leg offsets: the double 4 × 1.3 is a little above
    26 / 5 sideways, 1 × 1.5 is exact up and down. *)
Lemma legPositions_bounds (action : Action) (frame : Z) (p : LegPositions) :
  calculateLegPositions action frame = Normal p →
  (-(11 # 2) <= leftX p ∧ leftX p <= 11 # 2
   ∧ -(11 # 2) <= rightX p ∧ rightX p <= 11 # 2
   ∧ -(3 # 2) <= leftY p ∧ leftY p <= 3 # 2
   ∧ -(3 # 2) <= rightY p ∧ rightY p <= 3 # 2)%Q.
Proof.
  destruct (calculateLegPositions_cases action frame) as (p0 & Hp0 & ->).
  intros [= <-].
  assert (Hin : p0 ∈ walkCycle).
  { unfold arrayGet in Hp0. case_bool_decide; [| discriminate].
    eapply list_elem_of_lookup_2, Hp0. }
  unfold walkCycle in Hin.
  repeat (apply elem_of_cons in Hin as [-> | Hin]);
    [.. | apply elem_of_nil in Hin; contradiction];
    destruct action; repeat split; apply Qle_bool_iff; reflexivity.
Qed.

Section Cell.

Variables X Y : Z.
Variables centerX baseY : Q.
Hypothesis Hcenter : (centerX == inject_Z X + 16)%Q.
Hypothesis Hbase : (inject_Z Y + 26 <= baseY ∧ baseY <= inject_Z Y + 28)%Q.

(** The box of a frame drawn in the cell at [X], [Y] is the middle sixteen
    columns, from three rows above the cell to two rows above its end. *)

Lemma box_bounds :
  (inject_Z (X + 8) == inject_Z X + 8
   ∧ inject_Z (X + 24) == inject_Z X + 24
   ∧ inject_Z (Y - 3) == inject_Z Y - 3
   ∧ inject_Z (Y + 30) == inject_Z Y + 30)%Q.
Proof.
  unfold Z.sub. rewrite !inject_Z_plus.
  repeat split; unfold Qminus; apply Qplus_comp; reflexivity.
Qed.

Ltac arithmetic :=
  destruct box_bounds as (B1 & B2 & B3 & B4);
  destruct Hbase as [Hb1 Hb2];
  lra.

Ltac boxes :=
  repeat case_bool_decide; cbv beta iota zeta delta [orb];
  repeat first
    [ apply confined_drawPixelRect
    | apply confined_drawPixel
    | apply confined_skip
    | apply confined_comp ];
  arithmetic.

Lemma confined_drawLegs this direction positions :
  (-(11 # 2) <= leftX positions ∧ leftX positions <= 11 # 2
   ∧ -(11 # 2) <= rightX positions ∧ rightX positions <= 11 # 2
   ∧ -(3 # 2) <= leftY positions ∧ leftY positions <= 3 # 2
   ∧ -(3 # 2) <= rightY positions ∧ rightY positions <= 3 # 2)%Q →
  confined (X + 8) (Y - 3) (X + 24) (Y + 30)
    (drawLegs this centerX baseY direction positions).
Proof.
  intros (L1 & L2 & L3 & L4 & L5 & L6 & L7 & L8).
  unfold drawLegs. boxes.
Qed.

Lemma confined_drawBody this direction :
  confined (X + 8) (Y - 3) (X + 24) (Y + 30)
    (drawBody this centerX baseY direction).
Proof. unfold drawBody. boxes. Qed.

Lemma confined_drawHead this direction :
  confined (X + 8) (Y - 3) (X + 24) (Y + 30)
    (drawHead this centerX baseY direction).
Proof. unfold drawHead. boxes. Qed.

Lemma confined_drawFace this :
  confined (X + 8) (Y - 3) (X + 24) (Y + 30) (drawFace this centerX baseY).
Proof. unfold drawFace. boxes. Qed.

Lemma confined_drawFaceSide this direction :
  confined (X + 8) (Y - 3) (X + 24) (Y + 30)
    (drawFaceSide this centerX baseY direction).
Proof. unfold drawFaceSide. boxes. Qed.

Lemma confined_drawHairFront this :
  confined (X + 8) (Y - 3) (X + 24) (Y + 30) (drawHairFront this centerX baseY).
Proof. unfold drawHairFront. boxes. Qed.

Lemma confined_drawHairBack this :
  confined (X + 8) (Y - 3) (X + 24) (Y + 30) (drawHairBack this centerX baseY).
Proof. unfold drawHairBack. boxes. Qed.

Lemma confined_drawHairSide this direction :
  confined (X + 8) (Y - 3) (X + 24) (Y + 30)
    (drawHairSide this centerX baseY direction).
Proof. unfold drawHairSide. boxes. Qed.

Variable Math_sin : Q → Q.
Variable Math_PI : Q.
Hypothesis Hsin : ∀ q, (-1 <= Math_sin q ∧ Math_sin q <= 1)%Q.

Lemma confined_drawArms this direction action frame :
  confined (X + 8) (Y - 3) (X + 24) (Y + 30)
    (drawArms Math_sin Math_PI this centerX baseY direction action frame).
Proof.
  unfold drawArms.
  destruct (Hsin (inject_Z frame / 6 * Math_PI * 2)) as [S1 S2].
  boxes.
Qed.

End Cell.


Lemma Math_floor_integer (q : Q) (z : Z) :
  (q == inject_Z z)%Q → Math_floor q = inject_Z z.
Proof.
  intros H. unfold Math_floor. rewrite (Qfloor_comp _ _ H), Qfloor_Z.
  reflexivity.
Qed.

Lemma emits_after (op : DrawOp) (f g : World → World) :
  oblivious f → emits op g → emits op (λ w, g (f w)).
Proof.
  intros [ps Hf] (qs & Hg & Hin). exists (ps ++ qs). split.
  - apply appends_comp; assumption.
  - apply elem_of_app. right. exact Hin.
Qed.

(** Each of the three hair routines draws the top row of the hair. *)
Lemma emits_hair_top this centerX baseY direction :
  let op := FillRect (hair (colors this)) (Math_floor (centerX - 4))
              (Math_floor (baseY - 26 - 3)) 8 1 in
  emits op (drawHairFront this centerX baseY)
  ∧ emits op (drawHairBack this centerX baseY)
  ∧ emits op (drawHairSide this centerX baseY direction).
Proof.
  intros op. subst op. unfold drawHairFront, drawHairBack, drawHairSide.
  cbv zeta.
  split; [| split]; repeat case_bool_decide;
    (eexists; split;
     [ repeat first
         [ apply appends_drawPixelRect
         | apply appends_drawPixel
         | eapply appends_comp ]
     | rewrite !elem_of_app, !list_elem_of_singleton; tauto ]).
Qed.

End Extent.

(** ** Drawing: the frames of the sheet *)

Section Grid.

Import SpriteGenerator.

Lemma appends_unique (f : World → World) (ps qs : list DrawOp) :
  appends f ps → appends f qs → ps = qs.
Proof.
  intros Hp Hq. destruct (Hp blank) as [Ep _]. destruct (Hq blank) as [Eq _].
  rewrite Ep in Eq. exact Eq.
Qed.

Lemma drawing_appends (f : World → Completion World) (g : World → World)
    (ps : list DrawOp) :
  appends g ps → (∀ w, f w = Normal (g w)) → drawing f = ps.
Proof.
  intros Hg Hf. unfold drawing. rewrite Hf.
  destruct (Hg blank) as [-> _]. reflexivity.
Qed.

Lemma confined_draws x0 y0 x1 y1 (f : World → World) :
  confined x0 y0 x1 y1 f → draws f → paints x0 y0 x1 y1 f.
Proof.
  intros (ps & Hps & Hbox) (qs & Hne & Hqs).
  rewrite (appends_unique f qs ps Hqs Hps) in Hne.
  exists ps. auto.
Qed.

Lemma emits_before (op : DrawOp) (f g : World → World) :
  emits op f → oblivious g → emits op (λ w, g (f w)).
Proof.
  intros (ps & Hf & Hin) [qs Hg]. exists (ps ++ qs). split.
  - apply appends_comp; assumption.
  - apply elem_of_app. left. exact Hin.
Qed.

Lemma forEach_app {A} (body : A → World → Completion World)
    (l1 l2 : list A) (w : World) :
  forEach body (l1 ++ l2) w = (w' ← forEach body l1 w; forEach body l2 w').
Proof.
  revert w. induction l1 as [| x l1 IH]; intros w; [reflexivity |].
  simpl. destruct (body x w) as [w' | e]; [apply IH | reflexivity].
Qed.

(** A loop over calls that each draw a fixed drawing draws them one after
    the other. *)
Lemma forEach_drawing {A} (body : A → World → Completion World)
    (l : list A) :
  (∀ x, obliviousCall (body x)) →
  ∃ g, appends g (mjoin ((λ x, drawing (body x)) <$> l))
       ∧ ∀ w, forEach body l w = Normal (g w).
Proof.
  intros Hbody. induction l as [| x l IH].
  - exists (λ w, w). split; [apply appends_skip | reflexivity].
  - destruct (Hbody x) as (g & [ps Hg] & Hx).
    destruct IH as (h & Hh & Hl).
    exists (λ w, h (g w)). split.
    + rewrite fmap_cons. simpl mjoin.
      rewrite (drawing_appends (body x) g ps Hg Hx).
      apply appends_comp; assumption.
    + intros w. simpl. rewrite Hx. simpl. apply Hl.
Qed.

Variable Math_sin : Q → Q.
Variable Math_PI : Q.

(** [drawCharacter] is the figure followed by the hair. *)
Lemma drawCharacter_figure_hair this x y direction action frame offsetY :
  ∃ p,
    calculateLegPositions action frame = Normal p
    ∧ ∀ w,
        drawCharacter Math_sin Math_PI this x y direction action frame
          offsetY w
        = Normal
            (hairOf this (x + inject_Z (frameWidth this) / 2)
               (y + inject_Z (frameHeight this) - 4 + offsetY) direction
               (figure Math_sin Math_PI this
                  (x + inject_Z (frameWidth this) / 2)
                  (y + inject_Z (frameHeight this) - 4 + offsetY)
                  direction action frame p w)).
Proof.
  destruct (calculateLegPositions_returns action frame) as [p Hp].
  exists p. split; [exact Hp |]. intros w.
  unfold drawCharacter. rewrite Hp. cbn [mbind Completion_bind].
  destruct direction; reflexivity.
Qed.

Lemma draws_figure this centerX baseY direction action frame p :
  draws (figure Math_sin Math_PI this centerX baseY direction action frame p).
Proof.
  pose proof (draws_drawLegs this centerX baseY direction p) as Hlegs.
  pose proof (draws_then _ (drawBody this centerX baseY direction) Hlegs
                (oblivious_drawBody this centerX baseY direction)) as Hbody.
  unfold figure. destruct direction.
  - apply (draws_then _ (drawFace this centerX baseY));
      [| apply oblivious_drawFace].
    apply (draws_then _ (drawHead this centerX baseY Down));
      [exact Hbody | apply oblivious_drawHead].
  - apply (draws_then _ (drawFaceSide this centerX baseY Left));
      [| apply oblivious_drawFaceSide].
    apply (draws_then _ (drawHead this centerX baseY Left));
      [| apply oblivious_drawHead].
    apply (draws_then _ (drawArms Math_sin Math_PI this centerX baseY Left
                           action frame));
      [exact Hbody | apply oblivious_drawArms].
  - apply (draws_then _ (drawFaceSide this centerX baseY Right));
      [| apply oblivious_drawFaceSide].
    apply (draws_then _ (drawHead this centerX baseY Right));
      [| apply oblivious_drawHead].
    apply (draws_then _ (drawArms Math_sin Math_PI this centerX baseY Right
                           action frame));
      [exact Hbody | apply oblivious_drawArms].
  - apply (draws_then _ (drawHead this centerX baseY Up));
      [exact Hbody | apply oblivious_drawHead].
Qed.

Lemma draws_hairOf this centerX baseY direction :
  draws (hairOf this centerX baseY direction).
Proof.
  destruct (emits_hair_top this centerX baseY direction)
    as (Efront & Eback & Eside).
  assert (Hne : ∀ op g, emits op g → draws g).
  { intros op g (ps & Hg & Hin). exists ps. split; [| exact Hg].
    intros ->. apply elem_of_nil in Hin. contradiction. }
  destruct direction; simpl; eapply Hne; eassumption.
Qed.

End Grid.

(** ** Drawing: a frame in its cell *)

Section Figure.

Import SpriteGenerator.

Variables X Y : Z.
Variables centerX baseY : Q.
Hypothesis Hcenter : (centerX == inject_Z X + 16)%Q.
Hypothesis Hbase : (inject_Z Y + 26 <= baseY ∧ baseY <= inject_Z Y + 28)%Q.

Lemma cell_bounds :
  (inject_Z (X + 8) == inject_Z X + 8
   ∧ inject_Z (X + 24) == inject_Z X + 24
   ∧ inject_Z (Y + 30) == inject_Z Y + 30)%Q.
Proof. rewrite !inject_Z_plus. repeat split; reflexivity. Qed.

Ltac inCell :=
  repeat case_bool_decide; cbv beta iota zeta delta [orb];
  repeat first
    [ apply confined_drawPixelRect
    | apply confined_drawPixel
    | apply confined_skip
    | apply confined_comp ];
  destruct cell_bounds as (B1 & B2 & B3);
  destruct Hbase as [Hb1 Hb2];
  lra.

Lemma inCell_drawLegs this direction positions :
  (-(11 # 2) <= leftX positions ∧ leftX positions <= 11 # 2
   ∧ -(11 # 2) <= rightX positions ∧ rightX positions <= 11 # 2
   ∧ -(3 # 2) <= leftY positions ∧ leftY positions <= 3 # 2
   ∧ -(3 # 2) <= rightY positions ∧ rightY positions <= 3 # 2)%Q →
  confined (X + 8) Y (X + 24) (Y + 30)
    (drawLegs this centerX baseY direction positions).
Proof.
  intros (L1 & L2 & L3 & L4 & L5 & L6 & L7 & L8).
  unfold drawLegs. inCell.
Qed.

Lemma inCell_drawBody this direction :
  confined (X + 8) Y (X + 24) (Y + 30)
    (drawBody this centerX baseY direction).
Proof. unfold drawBody. inCell. Qed.

Lemma inCell_drawHead this direction :
  confined (X + 8) Y (X + 24) (Y + 30)
    (drawHead this centerX baseY direction).
Proof. unfold drawHead. inCell. Qed.

Lemma inCell_drawFace this :
  confined (X + 8) Y (X + 24) (Y + 30) (drawFace this centerX baseY).
Proof. unfold drawFace. inCell. Qed.

Lemma inCell_drawFaceSide this direction :
  confined (X + 8) Y (X + 24) (Y + 30)
    (drawFaceSide this centerX baseY direction).
Proof. unfold drawFaceSide. inCell. Qed.

Variable Math_sin : Q → Q.
Variable Math_PI : Q.
Hypothesis Hsin : ∀ q, (-1 <= Math_sin q ∧ Math_sin q <= 1)%Q.

Lemma inCell_drawArms this direction action frame :
  confined (X + 8) Y (X + 24) (Y + 30)
    (drawArms Math_sin Math_PI this centerX baseY direction action frame).
Proof.
  unfold drawArms.
  destruct (Hsin (inject_Z frame / 6 * Math_PI * 2)) as [S1 S2].
  inCell.
Qed.

(** Legs, body, arms, head and face lie in the cell. *)
Lemma inCell_figure this direction action frame p :
  calculateLegPositions action frame = Normal p →
  paints (X + 8) Y (X + 24) (Y + 30)
    (figure Math_sin Math_PI this centerX baseY direction action frame p).
Proof.
  intros Hp. apply confined_draws; [| apply draws_figure].
  pose proof (inCell_drawLegs this direction p
                (legPositions_bounds action frame p Hp)) as Hlegs.
  pose proof (confined_comp _ _ _ _ _ (drawBody this centerX baseY direction)
                Hlegs (inCell_drawBody this direction)) as Hbody.
  unfold figure. destruct direction.
  - apply (confined_comp _ _ _ _ _ (drawFace this centerX baseY));
      [| apply inCell_drawFace].
    apply (confined_comp _ _ _ _ _ (drawHead this centerX baseY Down));
      [exact Hbody | apply inCell_drawHead].
  - apply (confined_comp _ _ _ _ _ (drawFaceSide this centerX baseY Left));
      [| apply inCell_drawFaceSide].
    apply (confined_comp _ _ _ _ _ (drawHead this centerX baseY Left));
      [| apply inCell_drawHead].
    apply (confined_comp _ _ _ _ _
             (drawArms Math_sin Math_PI this centerX baseY Left action
                frame));
      [exact Hbody | apply inCell_drawArms].
  - apply (confined_comp _ _ _ _ _ (drawFaceSide this centerX baseY Right));
      [| apply inCell_drawFaceSide].
    apply (confined_comp _ _ _ _ _ (drawHead this centerX baseY Right));
      [| apply inCell_drawHead].
    apply (confined_comp _ _ _ _ _
             (drawArms Math_sin Math_PI this centerX baseY Right action
                frame));
      [exact Hbody | apply inCell_drawArms].
  - apply (confined_comp _ _ _ _ _ (drawHead this centerX baseY Up));
      [exact Hbody | apply inCell_drawHead].
Qed.

(** The hair lies in the columns of the cell, from three rows above
    it. *)
Lemma aboveCell_hairOf this direction :
  paints (X + 8) (Y - 3) (X + 24) (Y + 30)
    (hairOf this centerX baseY direction).
Proof.
  apply confined_draws; [| apply draws_hairOf].
  destruct direction; simpl.
  - apply confined_drawHairFront; assumption.
  - apply confined_drawHairSide; assumption.
  - apply confined_drawHairSide; assumption.
  - apply confined_drawHairBack; assumption.
Qed.

End Figure.

Section Marks.

Import SpriteGenerator.

Variable Math_sin : Q → Q.
Variable Math_PI : Q.

Lemma emits_one (op : DrawOp) (f : World → World) :
  appends f [op] → emits op f.
Proof. intros Hf. exists [op]. split; [exact Hf | left]. Qed.

Lemma emits_in_figure_body (op : DrawOp) this centerX baseY direction action
    frame p :
  emits op (drawBody this centerX baseY direction) →
  emits op
    (figure Math_sin Math_PI this centerX baseY direction action frame p).
Proof.
  intros Hop.
  pose proof (emits_after op _ (drawBody this centerX baseY direction)
                (oblivious_drawLegs this centerX baseY direction p) Hop)
    as Hbody.
  unfold figure. destruct direction.
  - apply (emits_before op _ (drawFace this centerX baseY));
      [| apply oblivious_drawFace].
    apply (emits_before op _ (drawHead this centerX baseY Down));
      [exact Hbody | apply oblivious_drawHead].
  - apply (emits_before op _ (drawFaceSide this centerX baseY Left));
      [| apply oblivious_drawFaceSide].
    apply (emits_before op _ (drawHead this centerX baseY Left));
      [| apply oblivious_drawHead].
    apply (emits_before op _
             (drawArms Math_sin Math_PI this centerX baseY Left action
                frame));
      [exact Hbody | apply oblivious_drawArms].
  - apply (emits_before op _ (drawFaceSide this centerX baseY Right));
      [| apply oblivious_drawFaceSide].
    apply (emits_before op _ (drawHead this centerX baseY Right));
      [| apply oblivious_drawHead].
    apply (emits_before op _
             (drawArms Math_sin Math_PI this centerX baseY Right action
                frame));
      [exact Hbody | apply oblivious_drawArms].
  - apply (emits_before op _ (drawHead this centerX baseY Up));
      [exact Hbody | apply oblivious_drawHead].
Qed.

Lemma oblivious_before_face this centerX baseY direction action frame p :
  oblivious
    (λ w, drawHead this centerX baseY direction
            (drawArms Math_sin Math_PI this centerX baseY direction action
               frame
               (drawBody this centerX baseY direction
                  (drawLegs this centerX baseY direction p w)))).
Proof.
  apply (oblivious_comp _ (drawHead this centerX baseY direction));
    [| apply oblivious_drawHead].
  apply (oblivious_comp _
           (drawArms Math_sin Math_PI this centerX baseY direction action
              frame));
    [| apply oblivious_drawArms].
  apply (oblivious_comp _ (drawBody this centerX baseY direction));
    [| apply oblivious_drawBody].
  apply oblivious_drawLegs.
Qed.

Lemma emits_in_figure_face (op : DrawOp) this centerX baseY action frame p :
  emits op (drawFace this centerX baseY) →
  emits op (figure Math_sin Math_PI this centerX baseY Down action frame p).
Proof.
  intros Hop. unfold figure.
  apply (emits_after op _ (drawFace this centerX baseY)); [| exact Hop].
  apply (oblivious_comp _ (drawHead this centerX baseY Down));
    [| apply oblivious_drawHead].
  apply (oblivious_comp _ (drawBody this centerX baseY Down));
    [| apply oblivious_drawBody].
  apply oblivious_drawLegs.
Qed.

Lemma emits_in_figure_faceSide (op : DrawOp) this centerX baseY direction
    action frame p :
  direction = Left ∨ direction = Right →
  emits op (drawFaceSide this centerX baseY direction) →
  emits op
    (figure Math_sin Math_PI this centerX baseY direction action frame p).
Proof.
  intros Hside Hop. unfold figure.
  destruct Hside as [-> | ->];
    (eapply (emits_after op _ (drawFaceSide this centerX baseY _));
     [apply oblivious_before_face | exact Hop]).
Qed.

(** The marks of a view, where the source computes them. *)
Lemma emits_eyes this centerX baseY :
  emits (FillRect (eyes (colors this)) (Math_floor (centerX - 3))
           (Math_floor (baseY - 26 + 3)) 1 1)
    (drawFace this centerX baseY)
  ∧ emits (FillRect (eyes (colors this)) (Math_floor (centerX + 2))
             (Math_floor (baseY - 26 + 3)) 1 1)
      (drawFace this centerX baseY).
Proof.
  unfold drawFace. cbv zeta. split.
  - apply (emits_before _ _ (drawPixel (centerX + 2) (baseY - 26 + 3)
                               (eyes (colors this))));
      [apply emits_one, appends_drawPixel | apply oblivious_drawPixel].
  - apply (emits_after _ _ (drawPixel (centerX + 2) (baseY - 26 + 3)
                              (eyes (colors this))));
      [apply oblivious_drawPixel | apply emits_one, appends_drawPixel].
Qed.

Lemma emits_side_eye this centerX baseY :
  emits (FillRect (eyes (colors this)) (Math_floor (centerX - 3))
           (Math_floor (baseY - 26 + 3)) 1 1)
    (drawFaceSide this centerX baseY Left)
  ∧ emits (FillRect (eyes (colors this)) (Math_floor (centerX + 2))
             (Math_floor (baseY - 26 + 3)) 1 1)
      (drawFaceSide this centerX baseY Right).
Proof. split; apply emits_one, appends_drawPixel. Qed.

Lemma emits_shadow this centerX baseY :
  emits (FillRect (shirtShadow (colors this)) (Math_floor (centerX + 2))
           (Math_floor (baseY - 18)) 3 10)
    (drawBody this centerX baseY Left)
  ∧ emits (FillRect (shirtShadow (colors this)) (Math_floor (centerX - 5))
             (Math_floor (baseY - 18)) 3 10)
      (drawBody this centerX baseY Right).
Proof.
  split;
    (apply (emits_after _ _ (drawPixelRect _ (baseY - 18) 3 10
                               (shirtShadow (colors this))));
     [apply oblivious_drawPixelRect | apply emits_one, appends_drawPixelRect]).
Qed.

Lemma emits_hair_block this centerX baseY :
  emits (FillRect (hair (colors this)) (Math_floor (centerX - 5))
           (Math_floor (baseY - 26 - 2)) 10 10)
    (drawHairBack this centerX baseY).
Proof.
  unfold drawHairBack. cbv zeta.
  apply (emits_before _ _ (drawPixel centerX (baseY - 26 - 1)
                             (hairHighlight (colors this))));
    [| apply oblivious_drawPixel].
  apply (emits_before _ _ (drawPixelRect (centerX - 4) (baseY - 26 - 3) 8 1
                             (hair (colors this))));
    [| apply oblivious_drawPixelRect].
  apply emits_one, appends_drawPixelRect.
Qed.

Variables X Y off : Z.
Variables centerX baseY : Q.
Hypothesis Hcenter : (centerX == inject_Z X + 16)%Q.
Hypothesis Hbase : (baseY == inject_Z Y + 28 + inject_Z off)%Q.

Lemma column_floor (k : Z) :
  Math_floor (centerX + inject_Z (k - 16)) = inject_Z (X + k).
Proof.
  apply Math_floor_integer. unfold Z.sub.
  rewrite !inject_Z_plus, Hcenter. change (inject_Z (- (16))) with (-16)%Q. lra.
Qed.

Lemma row_floor (k : Z) :
  Math_floor (baseY + inject_Z (k - 28)) = inject_Z (Y + k + off).
Proof.
  apply Math_floor_integer. unfold Z.sub.
  rewrite !inject_Z_plus, Hbase. change (inject_Z (- (28))) with (-28)%Q. lra.
Qed.

Lemma floor_comp (q q' : Q) : (q == q')%Q → Math_floor q = Math_floor q'.
Proof. intros H. unfold Math_floor. rewrite (Qfloor_comp _ _ H). reflexivity. Qed.

(** Every mark of the view is drawn. *)
Lemma emits_viewMarks (direction : Direction) (action : Action) (frame : Z)
    (p : LegPositions) (op : DrawOp) :
  op ∈ viewMarks direction X Y off →
  emits op
    (λ w, hairOf constructor centerX baseY direction
            (figure Math_sin Math_PI constructor centerX baseY direction
               action frame p w)).
Proof.
  intros Hin.
  pose proof (draws_oblivious _
                (draws_figure Math_sin Math_PI constructor centerX baseY
                   direction action frame p)) as Hfig.
  pose proof (draws_oblivious _
                (draws_hairOf constructor centerX baseY direction)) as Hhair.
  assert (Hx13 : Math_floor (centerX - 3) = inject_Z (X + 13)).
  { rewrite <- (column_floor 13). apply floor_comp. reflexivity. }
  assert (Hx18 : Math_floor (centerX + 2) = inject_Z (X + 18)).
  { rewrite <- (column_floor 18). apply floor_comp. reflexivity. }
  assert (Hx11 : Math_floor (centerX - 5) = inject_Z (X + 11)).
  { rewrite <- (column_floor 11). apply floor_comp. reflexivity. }
  assert (Hy5 : Math_floor (baseY - 26 + 3) = inject_Z (Y + 5 + off)).
  { rewrite <- (row_floor 5). apply floor_comp.
    change (inject_Z (5 - 28)) with (-23)%Q. lra. }
  assert (Hy10 : Math_floor (baseY - 18) = inject_Z (Y + 10 + off)).
  { rewrite <- (row_floor 10). apply floor_comp. reflexivity. }
  assert (Hy0 : Math_floor (baseY - 26 - 2) = inject_Z (Y + off)).
  { rewrite <- (Z.add_0_r Y), <- (row_floor 0). apply floor_comp.
    change (inject_Z (0 - 28)) with (-28)%Q. lra. }
  destruct (emits_eyes constructor centerX baseY) as [Eleft Eright].
  rewrite Hx13, Hy5 in Eleft. rewrite Hx18, Hy5 in Eright.
  destruct (emits_side_eye constructor centerX baseY) as [EsideL EsideR].
  rewrite Hx13, Hy5 in EsideL. rewrite Hx18, Hy5 in EsideR.
  destruct (emits_shadow constructor centerX baseY) as [EshadowL EshadowR].
  rewrite Hx18, Hy10 in EshadowL. rewrite Hx11, Hy10 in EshadowR.
  pose proof (emits_hair_block constructor centerX baseY) as Eblock.
  rewrite Hx11, Hy0 in Eblock.
  unfold viewMarks in Hin.
  destruct direction; cbv zeta in Hin;
    repeat (apply elem_of_cons in Hin as [-> | Hin]);
    try (apply elem_of_nil in Hin; contradiction).
  - apply (emits_before _ _ (hairOf constructor centerX baseY Down));
      [| exact Hhair].
    apply emits_in_figure_face. exact Eleft.
  - apply (emits_before _ _ (hairOf constructor centerX baseY Down));
      [| exact Hhair].
    apply emits_in_figure_face. exact Eright.
  - apply (emits_before _ _ (hairOf constructor centerX baseY Left));
      [| exact Hhair].
    apply emits_in_figure_body. exact EshadowL.
  - apply (emits_before _ _ (hairOf constructor centerX baseY Left));
      [| exact Hhair].
    apply emits_in_figure_faceSide; [auto | exact EsideL].
  - apply (emits_before _ _ (hairOf constructor centerX baseY Right));
      [| exact Hhair].
    apply emits_in_figure_body. exact EshadowR.
  - apply (emits_before _ _ (hairOf constructor centerX baseY Right));
      [| exact Hhair].
    apply emits_in_figure_faceSide; [auto | exact EsideR].
  - apply (emits_after _ _ (hairOf constructor centerX baseY Up));
      [exact Hfig | exact Eblock].
Qed.

End Marks.

Section Sheet.

Import SpriteGenerator.

Variable Math_sin : Q → Q.
Variable Math_PI : Q.

Lemma periodicOffset_range (a : Action) (f : Z) :
  -2 ≤ periodicOffset a f ≤ 0.
Proof. destruct a; unfold periodicOffset; case_bool_decide; lia. Qed.

(** A frame drawn at the corner (X, Y) of a cell with one of the offsets
    of the generator: the figure lies in the cell, the hair in its columns
    from three rows above it, and the marks of the view are there. *)
Lemma frame_in_cell (X Y off : Z) (direction : Direction) (action : Action)
    (frame : Z) :
  (∀ q, (-1 <= Math_sin q ∧ Math_sin q <= 1)%Q) →
  -2 ≤ off ≤ 0 →
  ∃ body hairs,
    drawing
      (drawCharacter Math_sin Math_PI constructor (inject_Z X) (inject_Z Y)
         direction action frame (inject_Z off))
    = body ++ hairs
    ∧ body ≠ []
    ∧ Forall (inBox (X + 8) Y (X + 24) (Y + 30)) body
    ∧ hairs ≠ []
    ∧ Forall (inBox (X + 8) (Y - 3) (X + 24) (Y + 30)) hairs
    ∧ ∀ op, op ∈ viewMarks direction X Y off → op ∈ body ++ hairs.
Proof.
  intros Hsin [Hoff1 Hoff2].
  destruct (drawCharacter_figure_hair Math_sin Math_PI constructor
              (inject_Z X) (inject_Z Y) direction action frame
              (inject_Z off)) as (p & Hp & Hdraw).
  change (frameWidth constructor) with 32 in Hdraw.
  change (frameHeight constructor) with 32 in Hdraw.
  set (centerX := (inject_Z X + inject_Z 32 / 2)%Q) in Hdraw.
  set (baseY := (inject_Z Y + inject_Z 32 - 4 + inject_Z off)%Q) in Hdraw.
  assert (Hcenter : (centerX == inject_Z X + 16)%Q).
  { subst centerX. change (inject_Z 32) with 32%Q. field. }
  assert (Hexact : (baseY == inject_Z Y + 28 + inject_Z off)%Q).
  { subst baseY. change (inject_Z 32) with 32%Q. lra. }
  assert (Hbase : (inject_Z Y + 26 <= baseY ∧ baseY <= inject_Z Y + 28)%Q).
  { rewrite Hexact. rewrite Zle_Qle in Hoff1, Hoff2.
    change (inject_Z (-2)) with (-2)%Q in Hoff1.
    change (inject_Z 0) with 0%Q in Hoff2.
    split; lra. }
  destruct (inCell_figure X Y centerX baseY Hcenter Hbase Math_sin Math_PI
              Hsin constructor direction action frame p Hp)
    as (body & Hne & Hbody & Hin).
  destruct (aboveCell_hairOf X Y centerX baseY Hcenter Hbase constructor
              direction) as (hairs & Hne' & Hhairs & Hin').
  pose proof (appends_comp _ (hairOf constructor centerX baseY direction)
                body hairs Hbody Hhairs) as Hall.
  exists body, hairs.
  split; [apply (drawing_appends _ _ _ Hall Hdraw) |].
  repeat (split; [assumption |]).
  intros op Hop.
  destruct (emits_viewMarks Math_sin Math_PI X Y off centerX baseY Hcenter
              Hexact direction action frame p op Hop) as (ps & Hps & Hmark).
  rewrite (appends_unique _ _ _ Hall Hps). exact Hmark.
Qed.

(** The sheet: the canvas cleared, then the drawing of every call, in
    the order of the calls. *)
Lemma generateSpritesheet_frames this (w : World) :
  ∃ sheet,
    generateSpritesheet Math_sin Math_PI this w = Normal sheet
    ∧ width (canvas sheet) = frameWidth this * framesPerRow this
    ∧ height (canvas sheet) = frameHeight this * totalRows this
    ∧ ops (canvas sheet)
      = ClearRect 0 0 (inject_Z (frameWidth this * framesPerRow this))
          (inject_Z (frameHeight this * totalRows this))
        :: mjoin ((λ c, drawing (perform Math_sin Math_PI this c))
                  <$> spritesheetCalls this).
Proof.
  destruct (forEach_drawing (perform Math_sin Math_PI this)
              (idleCalls this) (perform_oblivious Math_sin Math_PI this))
    as (gi & Hi & Ei).
  destruct (forEach_drawing (perform Math_sin Math_PI this)
              (walkCalls this) (perform_oblivious Math_sin Math_PI this))
    as (gw & Hw & Ew).
  destruct (forEach_drawing (perform Math_sin Math_PI this)
              (runCalls this) (perform_oblivious Math_sin Math_PI this))
    as (gr & Hr & Er).
  eexists.
  unfold generateSpritesheet, generateIdleAnimations,
    generateWalkAnimations, generateRunAnimations.
  rewrite Ei. cbn [mbind Completion_bind].
  rewrite Ew. cbn [mbind Completion_bind]. rewrite Er.
  split; [reflexivity |].
  match goal with
  | |- context [gr (gw (gi ?w0))] =>
      destruct (Hi w0) as (Oi & Wi & Hti & _);
      destruct (Hw (gi w0)) as (Ow & Ww & Htw & _);
      destruct (Hr (gw (gi w0))) as (Or & Wr & Htr & _)
  end.
  rewrite Or, Ow, Oi, Wr, Ww, Wi, Htr, Htw, Hti.
  unfold spritesheetCalls. rewrite !fmap_app, !join_app.
  split; [reflexivity |]. split; [reflexivity |].
  generalize (mjoin ((λ c, drawing (perform Math_sin Math_PI this c))
                     <$> idleCalls this)) as idle.
  generalize (mjoin ((λ c, drawing (perform Math_sin Math_PI this c))
                     <$> walkCalls this)) as walk.
  generalize (mjoin ((λ c, drawing (perform Math_sin Math_PI this c))
                     <$> runCalls this)) as run.
  intros run walk idle. rewrite <- !app_assoc. reflexivity.
Qed.

Lemma spritesheetCalls_cells :
  spritesheetCalls constructor = cellCall <$> layoutCells.
Proof. reflexivity. Qed.

Lemma layoutCells_spec (r column : Z) (a : Action) (d : Direction) :
  (r, column, a, d) ∈ layoutCells
  ↔ (r, a, d, frameCount a) ∈ rowLayout ∧ 0 ≤ column < frameCount a.
Proof.
  unfold layoutCells. rewrite list_elem_of_bind. split.
  - intros ([[[r' a'] d'] n] & Hin & Hrow).
    apply list_elem_of_fmap in Hin as (f & Heq & Hf).
    injection Heq as -> -> -> ->.
    apply elem_of_seqZ in Hf.
    pose proof rowLayout_frameCount as Hn.
    rewrite Forall_forall in Hn. specialize (Hn _ Hrow). simpl in Hn.
    subst n. split; [exact Hrow | lia].
  - intros [Hrow Hcol]. exists (r, a, d, frameCount a).
    split; [| exact Hrow].
    apply list_elem_of_fmap. exists column. split; [reflexivity |].
    apply elem_of_seqZ. lia.
Qed.

End Sheet.

(** ** The vertical offset of the frames *)

Section Offsets.

Import SpriteGenerator.

Variable Math_sin : Q → Q.
Variable Math_PI : Q.




End Offsets.


(** ** The frame generator: determinism, invalid frames, the grid *)

Section Generator.

Import SpriteGenerator.

Variable Math_sin : Q → Q.
Variable Math_PI : Q.

(** C8. Determinism of the frame generator: for all arguments, two calls
    of [drawCharacter] started in any two worlds (whatever was drawn
    before, whatever the fill style, whatever [Math.random] would deliver)
    both return, append the same sequence of drawing operations and
    consume no random number; and two runs of [generateSpritesheet] leave
    the same operations on their canvases. *)
Theorem frame_generator_deterministic (this : SpriteGenerator) (x y : Q)
    (direction : Direction) (action : Action) (frame : Z) (offsetY : Q)
    (w1 w2 : World) :
  (∃ w1' w2',
     drawCharacter Math_sin Math_PI this x y direction action frame
       offsetY w1 = Normal w1'
     ∧ drawCharacter Math_sin Math_PI this x y direction action frame
         offsetY w2 = Normal w2'
     ∧ emitted w1 w1' = emitted w2 w2'
     ∧ randomUsed w1' = randomUsed w1
     ∧ randomUsed w2' = randomUsed w2)
  ∧ (∃ s1 s2,
       generateSpritesheet Math_sin Math_PI this w1 = Normal s1
       ∧ generateSpritesheet Math_sin Math_PI this w2 = Normal s2
       ∧ ops (canvas s1) = ops (canvas s2)
       ∧ randomUsed s1 = randomUsed w1
       ∧ randomUsed s2 = randomUsed w2).
Proof.
  split.
  - destruct (drawCharacter_draws Math_sin Math_PI this x y direction
                action frame offsetY) as (g & (ps & _ & Hg) & Heq).
    exists (g w1), (g w2).
    rewrite !Heq, !(emitted_appends g ps) by exact Hg.
    destruct (Hg w1) as (_ & _ & _ & _ & ->).
    destruct (Hg w2) as (_ & _ & _ & _ & ->).
    auto.
  - destruct (generateSpritesheet_sheet Math_sin Math_PI this)
      as [drawn Hsheet].
    destruct (Hsheet w1) as (s1 & E1 & O1 & _ & _ & U1).
    destruct (Hsheet w2) as (s2 & E2 & O2 & _ & _ & U2).
    exists s1, s2. rewrite O1, O2. auto.
Qed.

(** C6. The grid.  The sheet is frameWidth × framesPerRow wide and
    frameHeight × totalRows high, 192 × 384 for the generator as
    constructed.  What is drawn on it, after the canvas is cleared, is one
    frame for each cell of the layout and nothing else, row after row:
    rows 0–3 idle, 4–7 walk and 8–11 run, each in the order down, left,
    right, up, with frames 0 to 3 in the first four columns of an idle
    row and frames 0 to 5 in the six columns of a walk or run row.  With
    [Math.sin] between −1 and 1, the frame of a cell has its legs, body,
    arms, head and face inside the cell and its hair in the columns of the
    cell, starting up to three pixel rows above it, and it shows the view
    of its row: two eyes (down), one eye and the shadow on the far side
    of the body (left, right), hair over the whole head (up).  The scene's
    own driver fills the same cells, and the default clip table names the
    same rows and frame counts. *)
Theorem spritesheet_grid_layout (this : SpriteGenerator) (w : World) :
  (∀ q, (-1 <= Math_sin q ∧ Math_sin q <= 1)%Q) →
  (∃ sheet,
     generateSpritesheet Math_sin Math_PI this w = Normal sheet
     ∧ width (canvas sheet) = frameWidth this * framesPerRow this
     ∧ height (canvas sheet) = frameHeight this * totalRows this)
  ∧ (∃ sheet,
       generateSpritesheet Math_sin Math_PI constructor w = Normal sheet
       ∧ width (canvas sheet) = 192
       ∧ height (canvas sheet) = 384
       ∧ ops (canvas sheet)
         = ClearRect 0 0 192 384
           :: mjoin (frameAt Math_sin Math_PI <$> layoutCells))
  ∧ (∀ r column a d,
       (r, column, a, d) ∈ layoutCells
       ↔ (r, a, d, frameCount a) ∈ rowLayout ∧ 0 ≤ column < frameCount a)
  ∧ (∀ r column a d,
       (r, column, a, d) ∈ layoutCells →
       ∃ body hairs,
         frameAt Math_sin Math_PI (r, column, a, d) = body ++ hairs
         ∧ body ≠ []
         ∧ Forall (inBox (column * 32 + 8) (r * 32) (column * 32 + 24)
                     (r * 32 + 30)) body
         ∧ hairs ≠ []
         ∧ Forall (inBox (column * 32 + 8) (r * 32 - 3) (column * 32 + 24)
                     (r * 32 + 30)) hairs
         ∧ ∀ op, op ∈ viewMarks d (column * 32) (r * 32)
                        (periodicOffset a column) →
                 op ∈ body ++ hairs)
  ∧ cell 32 32 <$> spritesheetCalls constructor = layoutCells
  ∧ cell 32 32 <$> GameScene.allFramesCalls = layoutCells
  ∧ (λ a, (SpriteConfig.row a, SpriteConfig.action a,
           SpriteConfig.direction a, SpriteConfig.frameCount a))
    <$> SpriteConfig.animations SpriteConfig.DEFAULT_ANIMATION_CONFIG
    = (λ '(r, a, d, n), (r, actionName a, directionName d, n))
      <$> rowLayout
  ∧ Forall (λ '(r, a, d, n), n = frameCount a) rowLayout.
Proof.
  intros Hsin.
  split; [| split; [| split; [| split; [| repeat split]]]].
  - destruct (generateSpritesheet_frames Math_sin Math_PI this w)
      as (sheet & E & Hw & Hh & _).
    exists sheet. auto.
  - destruct (generateSpritesheet_frames Math_sin Math_PI constructor w)
      as (sheet & E & Hw & Hh & Hops).
    exists sheet. split; [exact E |]. split; [exact Hw |].
    split; [exact Hh |].
    rewrite Hops, spritesheetCalls_cells, <- list_fmap_compose.
    reflexivity.
  - apply layoutCells_spec.
  - intros r column a d _.
    apply (frame_in_cell Math_sin Math_PI (column * 32) (r * 32)
             (periodicOffset a column) d a column Hsin).
    apply periodicOffset_range.
  - apply rowLayout_frameCount.
Qed.

End Generator.

Lemma spritesheet_grid_layout_witness :
  ∃ sheet,
    SpriteGenerator.generateSpritesheet (λ _, 0%Q) 3
      SpriteGenerator.constructor blank = Normal sheet
    ∧ width (canvas sheet) = 192
    ∧ height (canvas sheet) = 384
    ∧ ops (canvas sheet)
      = ClearRect 0 0 192 384 :: mjoin (frameAt (λ _, 0%Q) 3 <$> layoutCells).
Proof.
  apply (spritesheet_grid_layout (λ _, 0%Q) 3 SpriteGenerator.constructor
           blank).
  intros q. split; unfold Qle; simpl; lia.
Defined.

(** Unlike the character, the ground tile depends on [Math.random]: two
    worlds that differ only in what it delivers get different tiles. *)
Lemma ground_tiles_depend_on_random :
  let w1 := {| canvas := {| width := 0; height := 0;
                            fillStyle := "#000000"; ops := [] |};
               randomSource := λ _, 0%Q; randomUsed := 0 |} in
  let w2 := {| canvas := canvas w1;
               randomSource := λ _, (1 # 2)%Q; randomUsed := 0 |} in
  ops (canvas (GameScene.generateGroundTiles w1))
  ≠ ops (canvas (GameScene.generateGroundTiles w2))
  ∧ randomUsed (GameScene.generateGroundTiles w1) = 60%nat.
Proof. split; [vm_compute; discriminate | reflexivity]. Qed.

Section InvalidFrames.

Import SpriteGenerator.

(** C9, as amended. A frame index outside [0, frameCount(action)) is not
    rejected: [calculateLegPositions] returns what it returns for frame 0,
    and [drawCharacter] returns having drawn a frame. *)
Theorem invalid_frame_drawn_as_neutral (action : Action) (f : Z) :
  ¬ (0 ≤ f < frameCount action) →
  ¬ throws (calculateLegPositions action f)
  ∧ calculateLegPositions action f = calculateLegPositions action 0
  ∧ ∀ (Math_sin : Q → Q) (Math_PI : Q) this x y direction offsetY w,
      ∃ w',
        drawCharacter Math_sin Math_PI this x y direction action f
          offsetY w = Normal w'
        ∧ emitted w w' ≠ [].
Proof.
  intros Hout. split; [| split].
  - destruct (calculateLegPositions_returns action f) as [p Hp].
    rewrite Hp. intros [e He]. discriminate He.
  - destruct (calculateLegPositions_cases action f) as (p & Hp & ->).
    destruct (calculateLegPositions_cases action 0) as (p0 & Hp0 & ->).
    destruct action; [reflexivity | |];
      simpl in Hout;
      rewrite bool_decide_eq_false_2 in Hp by exact Hout;
      simpl in Hp0; congruence.
  - intros Math_sin Math_PI this x y direction offsetY w.
    destruct (drawCharacter_draws Math_sin Math_PI this x y direction
                action f offsetY) as (g & (ps & Hne & Hg) & Heq).
    exists (g w). split; [apply Heq |].
    rewrite (emitted_appends g ps) by exact Hg. exact Hne.
Qed.

Lemma invalid_frame_drawn_as_neutral_witness :
  ¬ throws (calculateLegPositions Walk (-1))
  ∧ calculateLegPositions Walk (-1) = calculateLegPositions Walk 0.
Proof.
  destruct (invalid_frame_drawn_as_neutral Walk (-1)) as (H1 & H2 & _).
  - simpl. lia.
  - split; [exact H1 | exact H2].
Defined.

(** C9 as stated fails: frame −1 of the walk is outside [0, 6), and the
    generator neither throws nor withholds the frame; it draws the 16
    rectangles of a front view with the legs of frame 0. *)
Lemma invalid_frame_not_rejected :
  let w0 := {| canvas := {| width := 192; height := 384;
                            fillStyle := "#000000"; ops := [] |};
               randomSource := λ _, 0%Q; randomUsed := 0 |} in
  ¬ (0 ≤ -1 < frameCount Walk)
  ∧ ¬ throws (calculateLegPositions Walk (-1))
  ∧ calculateLegPositions Walk (-1)
    = Normal {| leftX := -2; rightX := 2; leftY := 0; rightY := 0 |}%Q
  ∧ ∃ w', drawCharacter (λ _, 0%Q) 3 constructor 0 0 Down Walk (-1) 0 w0
          = Normal w'
          ∧ length (ops (canvas w')) = 16%nat.
Proof.
  intros w0. split; [simpl; lia |]. split; [| split].
  - intros [e He]. vm_compute in He. discriminate He.
  - reflexivity.
  - eexists. split; reflexivity.
Qed.

End InvalidFrames.

(** ** The clip table *)

Section ClipTable.

Import SpriteConfig.

Lemma NoDup_insert_fresh {A} (l : list A) (i : nat) (x : A) :
  NoDup l → x ∉ l → NoDup (<[i:=x]> l).
Proof.
  intros Hnd Hx.
  destruct (decide (i < length l)%nat) as [Hi | Hi];
    [| rewrite list_insert_ge by lia; exact Hnd].
  destruct (lookup_lt_is_Some_2 l i Hi) as [y Hy].
  rewrite insert_take_drop by exact Hi.
  rewrite <- (take_drop_middle l i y Hy) in Hnd, Hx.
  apply NoDup_app in Hnd as (H1 & H2 & H3).
  apply NoDup_cons in H3 as [H3 H4].
  apply NoDup_app. split; [exact H1 | split].
  - intros z Hz. rewrite elem_of_cons. intros [-> | Hz'].
    + apply Hx. rewrite elem_of_app. left. exact Hz.
    + apply (H2 z Hz). rewrite elem_of_cons. right. exact Hz'.
  - apply NoDup_cons. split; [| exact H4].
    intros Hin. apply Hx. rewrite elem_of_app, elem_of_cons. auto.
Qed.

Lemma default_rows_distinct :
  NoDup (rows (animations DEFAULT_ANIMATION_CONFIG)).
Proof. apply (bool_decide_unpack _). vm_compute. exact I. Qed.

(** One update that keeps the touched row apart keeps all rows apart. *)
Lemma updateAnimation_rows_distinct (t : list Animation)
    (a d : string) (u : Updates) :
  NoDup (rows t) → keepsRowsDistinct t a d u →
  NoDup (rows (updateAnimation t a d u)).
Proof.
  unfold keepsRowsDistinct, updateAnimation, rows.
  intros Hnd Hkeep.
  destruct (list_find (isFor a d) t) as [[i anim] |] eqn:Hfind.
  - rewrite list_fmap_insert.
    apply list_find_Some in Hfind as (Hi & _ & _).
    destruct Hkeep as [-> | Hfresh].
    + rewrite list_insert_id; [exact Hnd |].
      rewrite list_lookup_fmap, Hi. reflexivity.
    + apply NoDup_insert_fresh; assumption.
  - rewrite fmap_app. apply NoDup_app. split; [exact Hnd | split].
    + intros z Hz Hin. simpl in Hin.
      apply list_elem_of_singleton in Hin as ->. contradiction.
    + apply NoDup_singleton.
Qed.

(** C7, as amended. The rows of the default clip table are pairwise
    distinct, and they stay so along every sequence of [updateAnimation]
    calls each of which leaves the row of the animation it touches as it
    was or moves it (or the animation it appends) to a row that no
    animation of the table uses. *)
Theorem rows_distinct_under_fresh_updates (t : list Animation) :
  reachableDistinct t → NoDup (rows t).
Proof.
  induction 1 as [| t a d u _ IH Hkeep].
  - apply default_rows_distinct.
  - apply updateAnimation_rows_distinct; assumption.
Qed.

Lemma rows_distinct_under_fresh_updates_witness :
  NoDup (rows (updateAnimation (animations DEFAULT_ANIMATION_CONFIG)
                 "walk" "up"
                 {| u_action := None; u_direction := None;
                    u_row := Some 12; u_startFrame := None;
                    u_frameCount := None; u_frameRate := None |})).
Proof.
  apply rows_distinct_under_fresh_updates.
  apply distinct_update; [apply distinct_default |].
  right. apply (bool_decide_unpack _). vm_compute. exact I.
Defined.

(** C7 as stated fails: pointing idle-down at row 1, as the editor's row
    field does, is one [updateAnimation] call from the default table and
    leaves two animations on row 1. *)
Lemma rows_not_distinct_after_update :
  let t := updateAnimation (animations DEFAULT_ANIMATION_CONFIG)
             "idle" "down"
             {| u_action := None; u_direction := None; u_row := Some 1;
                u_startFrame := None; u_frameCount := None;
                u_frameRate := None |} in
  reachable t
  ∧ rows t = [1; 1; 2; 3; 4; 5; 6; 7; 8; 9; 10; 11]
  ∧ ¬ NoDup (rows t).
Proof.
  intros t. split; [apply reachable_update, reachable_default |].
  split; [reflexivity |].
  intros Hnd. apply NoDup_cons in Hnd as [Hin _].
  apply Hin. left.
Qed.

Lemma includes_Object_assign (anim : Animation) (u : Updates) :
  includes (Object_assign anim u) u.
Proof.
  unfold includes, Object_assign. simpl.
  repeat split; intros v ->; reflexivity.
Qed.

Lemma isFor_Object_assign (a d : string) (anim : Animation) (u : Updates) :
  keepsKey a d u → isFor a d anim → isFor a d (Object_assign anim u).
Proof.
  unfold keepsKey, isFor, Object_assign. simpl.
  intros [Ha Hd] [-> ->]. split; assumption.
Qed.

(** The animation that [updateAnimation] wrote is the one found next. *)
Lemma getAnimation_updateAnimation (t : list Animation) (a d : string)
    (u : Updates) :
  keepsKey a d u →
  getAnimation (updateAnimation t a d u) a d
  = Some match getAnimation t a d with
         | Some anim => Object_assign anim u
         | None => newAnimation a d u
         end.
Proof.
  intros Hkey. unfold getAnimation, updateAnimation.
  destruct (list_find (isFor a d) t) as [[i anim] |] eqn:Hfind; simpl.
  - apply list_find_Some in Hfind as (Hi & HP & Hleast).
    assert (Hnew : list_find (isFor a d) (<[i:=Object_assign anim u]> t)
                   = Some (i, Object_assign anim u)).
    { apply list_find_Some. split; [| split].
      - apply list_lookup_insert_eq. eapply lookup_lt_Some, Hi.
      - apply isFor_Object_assign; assumption.
      - intros j y Hj Hlt.
        rewrite list_lookup_insert_ne in Hj by lia.
        eapply Hleast; eassumption. }
    rewrite Hnew. reflexivity.
  - rewrite list_find_app_r by exact Hfind. simpl.
    rewrite decide_True; [reflexivity |].
    apply isFor_Object_assign; [exact Hkey | split; reflexivity].
Qed.

(** C10, as amended. For every clip table, action, direction and update
    record that does not rename the animation (it sets [action] and
    [direction], if at all, to the action and direction of the call),
    [getAnimation] after [updateAnimation] returns an animation that has
    every property of the update; when there was none before, that
    animation was appended, with row 0, startFrame 0, frameCount 4 and
    frameRate 8 for the properties the update does not name. *)
Theorem update_then_lookup (t : list Animation) (a d : string)
    (u : Updates) :
  keepsKey a d u →
  ∃ anim,
    getAnimation (updateAnimation t a d u) a d = Some anim
    ∧ includes anim u
    ∧ (getAnimation t a d = None →
       updateAnimation t a d u = t ++ [anim]
       ∧ action anim = a
       ∧ direction anim = d
       ∧ row anim = default 0 (u_row u)
       ∧ startFrame anim = default 0 (u_startFrame u)
       ∧ frameCount anim = default 4 (u_frameCount u)
       ∧ frameRate anim = default 8 (u_frameRate u)).
Proof.
  intros Hkey. eexists. split; [apply getAnimation_updateAnimation, Hkey |].
  destruct (getAnimation t a d) as [anim |] eqn:Hget.
  - split; [apply includes_Object_assign | discriminate].
  - split; [apply includes_Object_assign |]. intros _.
    split.
    + unfold updateAnimation. unfold getAnimation in Hget.
      destruct (list_find (isFor a d) t); [discriminate | reflexivity].
    + destruct Hkey as [Ha Hd]. unfold newAnimation, Object_assign. simpl.
      repeat split; assumption.
Qed.

Lemma update_then_lookup_witness :
  ∃ anim,
    getAnimation
      (updateAnimation (animations DEFAULT_ANIMATION_CONFIG) "attack" "down"
         {| u_action := None; u_direction := None; u_row := Some 12;
            u_startFrame := None; u_frameCount := None;
            u_frameRate := None |})
      "attack" "down" = Some anim
    ∧ row anim = 12.
Proof.
  destruct (update_then_lookup (animations DEFAULT_ANIMATION_CONFIG)
              "attack" "down"
              {| u_action := None; u_direction := None; u_row := Some 12;
                 u_startFrame := None; u_frameCount := None;
                 u_frameRate := None |}) as (anim & Hget & Hinc & _).
  - split; reflexivity.
  - exists anim. split; [exact Hget |].
    destruct Hinc as (_ & _ & Hrow & _). apply Hrow. reflexivity.
Defined.

(** C10 as stated fails for an update that renames the animation: after
    [updateAnimation('idle', 'down', { action: 'run' })] on the default
    table there is no idle-down animation left to find. *)
Lemma renaming_update_not_found :
  getAnimation
    (updateAnimation (animations DEFAULT_ANIMATION_CONFIG) "idle" "down"
       {| u_action := Some "run"; u_direction := None; u_row := None;
          u_startFrame := None; u_frameCount := None;
          u_frameRate := None |})
    "idle" "down" = None.
Proof. vm_compute. reflexivity. Qed.

End ClipTable.

(** * Further properties *)

(** ** Player: what is played, and how the body is moved *)

Section PlayerClips.

Import Player PlayerScene.

Lemma createAnimation_lookup (key key' : string) (s e : Z)
    (config : ClipConfig) (anims : gmap string Clip) :
  createAnimation key s e config anims !! key'
  = match anims !! key' with
    | Some clip => Some clip
    | None =>
        if bool_decide (key = key') then
          Some {| frames := seqZ s (e - s + 1);
                  frameRate := cfg_frameRate config;
                  repeat := cfg_repeat config |}
        else None
    end.
Proof.
  unfold createAnimation.
  case_bool_decide as Hex.
  - destruct (anims !! key') as [clip |] eqn:Hk'; [reflexivity |].
    case_bool_decide as Heq; [| reflexivity].
    subst key'. rewrite Hk' in Hex. destruct Hex as [? Hex]. discriminate.
  - case_bool_decide as Heq.
    + subst key'. rewrite lookup_insert_eq.
      destruct (anims !! key) eqn:Hk; [| reflexivity].
      exfalso. apply Hex. eauto.
    + rewrite lookup_insert_ne by exact Heq.
      destruct (anims !! key'); reflexivity.
Qed.

Lemma createAnimation_keeps (key key' : string) (s e : Z)
    (config : ClipConfig) (anims : gmap string Clip) (clip : Clip) :
  anims !! key' = Some clip →
  createAnimation key s e config anims !! key' = Some clip.
Proof. intros H. rewrite createAnimation_lookup, H. reflexivity. Qed.

Lemma createAnimation_registers (key : string) (s e : Z)
    (config : ClipConfig) (anims : gmap string Clip) :
  is_Some (createAnimation key s e config anims !! key).
Proof.
  rewrite createAnimation_lookup.
  destruct (anims !! key); [eauto |].
  rewrite bool_decide_eq_true_2 by reflexivity. eauto.
Qed.

Lemma createAnimation_present (key : string) (s e : Z)
    (config : ClipConfig) (anims : gmap string Clip) :
  is_Some (anims !! key) → createAnimation key s e config anims = anims.
Proof.
  intros H. unfold createAnimation.
  rewrite bool_decide_eq_true_2 by exact H. reflexivity.
Qed.

Lemma createAnimation_is_Some_mono (key key' : string) (s e : Z)
    (config : ClipConfig) (anims : gmap string Clip) :
  is_Some (anims !! key') →
  is_Some (createAnimation key s e config anims !! key').
Proof. intros [clip H]. exists clip. apply createAnimation_keeps, H. Qed.

(** Deciding a chain of [createAnimation] calls at one literal key. *)
Ltac registered :=
  repeat lazymatch goal with
  | |- is_Some (createAnimation ?k _ _ _ _ !! ?k) =>
      apply createAnimation_registers
  | |- is_Some (createAnimation _ _ _ _ _ !! _) =>
      apply createAnimation_is_Some_mono
  end.

Lemma createAnimations_registers (anims : gmap string Clip)
    (a : Action) (d : Direction) :
  is_Some (createAnimations anims !! animationKey a d).
Proof.
  unfold createAnimations. cbv zeta.
  destruct a, d;
    match goal with
    | |- context [animationKey ?a ?d] =>
        let k := eval vm_compute in (animationKey a d) in
        change (animationKey a d) with k
    end;
    registered.
Qed.

(** X1. A clip that is already registered is never replaced by
    [createAnimations], and running [createAnimations] a second time
    changes nothing. *)
Theorem createAnimations_keeps_existing (anims : gmap string Clip) :
  (∀ key clip, anims !! key = Some clip →
               createAnimations anims !! key = Some clip)
  ∧ createAnimations (createAnimations anims) = createAnimations anims.
Proof.
  split.
  - intros key clip H. unfold createAnimations.
    repeat apply createAnimation_keeps. exact H.
  - set (r := createAnimations anims).
    assert (Hall : ∀ a d, is_Some (r !! animationKey a d))
      by (intros a d; apply createAnimations_registers).
    unfold createAnimations at 1.
    rewrite (createAnimation_present "idle-down") by apply (Hall Idle Down).
    rewrite (createAnimation_present "idle-left") by apply (Hall Idle Left).
    rewrite (createAnimation_present "idle-right") by apply (Hall Idle Right).
    rewrite (createAnimation_present "idle-up") by apply (Hall Idle Up).
    rewrite (createAnimation_present "walk-down") by apply (Hall Walk Down).
    rewrite (createAnimation_present "walk-left") by apply (Hall Walk Left).
    rewrite (createAnimation_present "walk-right") by apply (Hall Walk Right).
    rewrite (createAnimation_present "walk-up") by apply (Hall Walk Up).
    rewrite (createAnimation_present "run-down") by apply (Hall Run Down).
    rewrite (createAnimation_present "run-left") by apply (Hall Run Left).
    rewrite (createAnimation_present "run-right") by apply (Hall Run Right).
    rewrite (createAnimation_present "run-up") by apply (Hall Run Up).
    reflexivity.
Qed.

Lemma createAnimations_keeps_existing_witness :
  createAnimations
    {[ "walk-up" := {| frames := [0]; frameRate := 1; repeat := 0 |} ]}
  !! "walk-up"
  = Some {| frames := [0]; frameRate := 1; repeat := 0 |}.
Proof.
  apply (proj1 (createAnimations_keeps_existing _)).
  apply lookup_singleton_eq.
Defined.

(** What every player reached from the constructor satisfies. *)
Lemma ticks_invariant (inputs : list Input) (p : Player) :
  (last (plays (sprite p))
   = Some (animationKey (currentState p) (currentDirection p))
   ∧ isMoving p = false
   ∧ ∀ k, k ∈ plays (sprite p) → ∃ a d, k = animationKey a d) →
  let q := ticks inputs p in
  last (plays (sprite q))
  = Some (animationKey (currentState q) (currentDirection q))
  ∧ isMoving q = false
  ∧ ∀ k, k ∈ plays (sprite q) → ∃ a d, k = animationKey a d.
Proof.
  revert p. induction inputs as [| i inputs IH]; intros p Hp; [exact Hp |].
  simpl. apply IH. destruct Hp as (Hlast & Hmov & Hkeys).
  unfold updateAnimation.
  destruct (changed p _ _); [| auto].
  simpl. split; [apply last_snoc | split; [exact Hmov |]].
  intros k Hk. apply elem_of_app in Hk as [Hk | Hk]; [auto |].
  apply list_elem_of_singleton in Hk. eauto.
Qed.

Lemma constructor_invariant :
  last (plays (sprite constructor))
  = Some (animationKey (currentState constructor)
            (currentDirection constructor))
  ∧ isMoving constructor = false
  ∧ ∀ k, k ∈ plays (sprite constructor) → ∃ a d, k = animationKey a d.
Proof.
  split; [reflexivity | split; [reflexivity |]].
  intros k Hk. apply list_elem_of_singleton in Hk.
  exists Idle, Down. exact Hk.
Qed.

(** X2. After any sequence of ticks from the constructor, the clip the
    sprite was last asked to play is the one named by the stored state
    and direction; and the field [isMoving] still holds [false], whatever
    was pressed. *)
Theorem playing_clip_matches_state (inputs : list Input) :
  let p := ticks inputs constructor in
  last (plays (sprite p))
  = Some (animationKey (currentState p) (currentDirection p))
  ∧ isMoving p = false.
Proof.
  destruct (ticks_invariant inputs constructor constructor_invariant)
    as (H1 & H2 & _).
  split; assumption.
Qed.

(** X3. Every key the sprite is asked to play, over any sequence of ticks
    from the constructor, is a clip that [createAnimations] has
    registered, whatever the animation manager held before. *)
Theorem played_clips_are_registered (inputs : list Input)
    (anims : gmap string Clip) (k : string) :
  k ∈ plays (sprite (ticks inputs constructor)) →
  is_Some (createAnimations anims !! k).
Proof.
  intros Hk.
  destruct (ticks_invariant inputs constructor constructor_invariant)
    as (_ & _ & Hkeys).
  destruct (Hkeys k Hk) as (a & d & ->).
  apply createAnimations_registers.
Qed.

Lemma played_clips_are_registered_witness :
  is_Some (createAnimations ∅ !! "run-left").
Proof.
  apply (played_clips_are_registered
           [ {| in_left := true; in_right := true; in_up := false;
                in_down := false; in_running := true |} ] ∅ "run-left").
  vm_compute. apply list_elem_of_In. right. left. reflexivity.
Defined.

(** X4. On a fresh animation manager, the clip registered for an action
    and direction plays exactly the frames that [generateSpritesheet] drew
    for that action and direction, in order, numbered row by row over the
    six columns of the sheet; at 4, 8 and 12 frames per second for idle,
    walk and run, looping. *)
Theorem clips_play_the_drawn_frames (a : Action) (d : Direction) :
  ∃ clip,
    createAnimations ∅ !! animationKey a d = Some clip
    ∧ frames clip
      = (λ c, frameNumber
                (SpriteGenerator.framesPerRow SpriteGenerator.constructor)
                (c.1.1.1) (c.1.1.2))
        <$> filter (λ c, c.1.2 = a ∧ c.2 = d)
              (cell 32 32
                 <$> SpriteGenerator.spritesheetCalls
                       SpriteGenerator.constructor)
    ∧ frameRate clip = match a with Idle => 4 | Walk => 8 | Run => 12 end
    ∧ repeat clip = -1.
Proof.
  destruct a, d; eexists; (split; [vm_compute; reflexivity |]);
    vm_compute; auto.
Qed.

End PlayerClips.

Section PlayerMotion.

Import Player PlayerScene.

(** X5. One [update]: while a direction key is held, the velocity set on
    the body points the way the character then faces (left: x = −speed;
    right: x = speed; up: x = 0 and y = −speed; down: x = 0 and y = speed)
    with speed 180 when shift is held and 100 otherwise, the state being
    run or walk accordingly; with no key held the velocity is zero, the
    state idle and the direction kept.  The last body call is always the
    rescaling to that speed. *)
Theorem movement_agrees_with_facing (this : Player) (cursors wasd : Keys)
    (shiftKey : bool) :
  let p := (update this cursors wasd shiftKey).1 in
  let calls := (update this cursors wasd shiftKey).2 in
  let vx := (requestedVelocity calls).1 in
  let vy := (requestedVelocity calls).2 in
  let speed := if shiftKey then runSpeed else walkSpeed in
  let held :=
    key_left cursors || key_left wasd || (key_right cursors || key_right wasd)
    || (key_up cursors || key_up wasd)
    || (key_down cursors || key_down wasd) in
  (held = true →
     match currentDirection p with
     | Left => vx = - speed
     | Right => vx = speed
     | Up => vx = 0 ∧ vy = - speed
     | Down => vx = 0 ∧ vy = speed
     end
     ∧ currentState p = if shiftKey then Run else Walk)
  ∧ (held = false →
       vx = 0 ∧ vy = 0 ∧ currentState p = Idle
       ∧ currentDirection p = currentDirection this)
  ∧ last calls = Some (NormalizeScale speed).
Proof.
  intros p calls vx vy speed held.
  pose proof (updateAnimation_state this
                (key_left cursors || key_left wasd)
                (key_right cursors || key_right wasd)
                (key_up cursors || key_up wasd)
                (key_down cursors || key_down wasd) shiftKey) as [Hs Hd].
  simpl in Hs, Hd.
  subst p calls vx vy speed held. unfold update. simpl.
  rewrite Hs, Hd. clear Hs Hd.
  destruct cursors as [cl cr cu cd], wasd as [wl wr wu wd]. simpl.
  destruct cl, wl, cr, wr, cu, wu, cd, wd, shiftKey; simpl;
    (split; [| split]); try reflexivity; try discriminate; intros _; auto.
Qed.

Lemma movement_agrees_with_facing_witness :
  (requestedVelocity
     (update constructor
        {| key_left := false; key_right := false; key_up := true;
           key_down := true |}
        {| key_left := false; key_right := true; key_up := false;
           key_down := false |} true).2).1 = 180.
Proof.
  destruct (movement_agrees_with_facing constructor
              {| key_left := false; key_right := false; key_up := true;
                 key_down := true |}
              {| key_left := false; key_right := true; key_up := false;
                 key_down := false |} true) as (Hheld & _ & _).
  destruct (Hheld eq_refl) as [Hv _]. exact Hv.
Defined.

End PlayerMotion.

(** ** The frame generator: where a frame is drawn *)

Section FrameExtent.

Import SpriteGenerator.

Section WholeFrame.

Variable Math_sin : Q → Q.
Variable Math_PI : Q.

(** X6. With [Math.sin] between −1 and 1, a frame drawn for the cell at
    integer position (X, Y) with a vertical offset of 0, −1 or −2 (the
    offsets the generator uses) consists of filled rectangles that all lie
    in columns X + 8 to X + 23 and rows Y − 3 to Y + 29: inside the
    columns of the cell and above its lower edge, but up to three rows
    above its upper edge. *)
Theorem frame_stays_in_its_box (X Y off : Z) (direction : Direction)
    (action : Action) (frame : Z) (w : World) :
  (∀ q, (-1 <= Math_sin q ∧ Math_sin q <= 1)%Q) →
  -2 ≤ off ≤ 0 →
  ∃ w',
    drawCharacter Math_sin Math_PI constructor (inject_Z X) (inject_Z Y)
      direction action frame (inject_Z off) w = Normal w'
    ∧ Forall (inBox (X + 8) (Y - 3) (X + 24) (Y + 30)) (emitted w w').
Proof.
  intros Hsin [Hoff1 Hoff2].
  destruct (calculateLegPositions_returns action frame) as [p Hp].
  pose proof (legPositions_bounds action frame p Hp) as Hlegs.
  unfold drawCharacter. rewrite Hp. cbn [mbind Completion_bind].
  change (frameWidth constructor) with 32.
  change (frameHeight constructor) with 32.
  set (centerX := (inject_Z X + inject_Z 32 / 2)%Q).
  set (baseY := (inject_Z Y + inject_Z 32 - 4 + inject_Z off)%Q).
  assert (Hcenter : (centerX == inject_Z X + 16)%Q).
  { subst centerX. change (inject_Z 32) with 32%Q. field. }
  assert (Hbase : (inject_Z Y + 26 <= baseY ∧ baseY <= inject_Z Y + 28)%Q).
  { subst baseY. change (inject_Z 32) with 32%Q.
    rewrite Zle_Qle in Hoff1, Hoff2.
    change (inject_Z (-2)) with (-2)%Q in Hoff1.
    change (inject_Z 0) with 0%Q in Hoff2.
    split; lra. }
  assert (Hconf :
    ∀ g, confined (X + 8) (Y - 3) (X + 24) (Y + 30) g →
         ∃ w', Normal (g w) = Normal w'
               ∧ Forall (inBox (X + 8) (Y - 3) (X + 24) (Y + 30))
                   (emitted w w')).
  { intros g (ps & Hg & Hps). exists (g w). split; [reflexivity |].
    rewrite (emitted_appends g ps) by exact Hg. exact Hps. }
  pose proof (confined_drawLegs X Y centerX baseY Hcenter Hbase constructor
                direction p Hlegs) as Clegs.
  pose proof (confined_drawBody X Y centerX baseY Hcenter Hbase constructor
                direction) as Cbody.
  pose proof (confined_drawHead X Y centerX baseY Hcenter Hbase constructor
                direction) as Chead.
  repeat case_bool_decide.
  - apply (Hconf (λ w0, drawHairBack constructor centerX baseY
                    (drawHead constructor centerX baseY direction
                       (drawBody constructor centerX baseY direction
                          (drawLegs constructor centerX baseY direction
                             p w0))))).
    apply (confined_comp _ _ _ _ _ (drawHairBack constructor centerX baseY));
      [| apply confined_drawHairBack; assumption].
    apply (confined_comp _ _ _ _ _
             (drawHead constructor centerX baseY direction));
      [| exact Chead].
    apply (confined_comp _ _ _ _ _
             (drawBody constructor centerX baseY direction));
      [| exact Cbody].
    exact Clegs.
  - apply (Hconf (λ w0, drawHairFront constructor centerX baseY
                    (drawFace constructor centerX baseY
                       (drawHead constructor centerX baseY direction
                          (drawBody constructor centerX baseY direction
                             (drawLegs constructor centerX baseY direction
                                p w0)))))).
    apply (confined_comp _ _ _ _ _ (drawHairFront constructor centerX baseY));
      [| apply confined_drawHairFront; assumption].
    apply (confined_comp _ _ _ _ _ (drawFace constructor centerX baseY));
      [| apply confined_drawFace; assumption].
    apply (confined_comp _ _ _ _ _
             (drawHead constructor centerX baseY direction));
      [| exact Chead].
    apply (confined_comp _ _ _ _ _
             (drawBody constructor centerX baseY direction));
      [| exact Cbody].
    exact Clegs.
  - apply (Hconf (λ w0, drawHairSide constructor centerX baseY direction
                    (drawFaceSide constructor centerX baseY direction
                       (drawHead constructor centerX baseY direction
                          (drawArms Math_sin Math_PI constructor centerX
                             baseY direction action frame
                             (drawBody constructor centerX baseY direction
                                (drawLegs constructor centerX baseY
                                   direction p w0))))))).
    apply (confined_comp _ _ _ _ _
             (drawHairSide constructor centerX baseY direction));
      [| apply confined_drawHairSide; assumption].
    apply (confined_comp _ _ _ _ _
             (drawFaceSide constructor centerX baseY direction));
      [| apply confined_drawFaceSide; assumption].
    apply (confined_comp _ _ _ _ _
             (drawHead constructor centerX baseY direction));
      [| exact Chead].
    apply (confined_comp _ _ _ _ _
             (drawArms Math_sin Math_PI constructor centerX baseY direction
                action frame));
      [| apply confined_drawArms; assumption].
    apply (confined_comp _ _ _ _ _
             (drawBody constructor centerX baseY direction));
      [| exact Cbody].
    exact Clegs.
Qed.

(** X7. Every frame, whatever the direction, action and frame index,
    contains the top row of the hair: an 8 × 1 rectangle in the hair
    colour at column X + 12 and row Y − 1 + offsetY of a cell at (X, Y).
    With the offsets 0, −1 and −2 of the generator that row is one to
    three rows above the cell. *)
Theorem hair_row_above_the_cell (X Y off : Z) (direction : Direction)
    (action : Action) (frame : Z) (w : World) :
  ∃ w',
    drawCharacter Math_sin Math_PI constructor (inject_Z X) (inject_Z Y)
      direction action frame (inject_Z off) w = Normal w'
    ∧ FillRect (hair (colors constructor)) (inject_Z (X + 12))
        (inject_Z (Y - 1 + off)) 8 1 ∈ emitted w w'.
Proof.
  destruct (calculateLegPositions_returns action frame) as [p Hp].
  unfold drawCharacter. rewrite Hp. cbn [mbind Completion_bind].
  change (frameWidth constructor) with 32.
  change (frameHeight constructor) with 32.
  set (centerX := (inject_Z X + inject_Z 32 / 2)%Q).
  set (baseY := (inject_Z Y + inject_Z 32 - 4 + inject_Z off)%Q).
  assert (Hx : Math_floor (centerX - 4) = inject_Z (X + 12)).
  { apply Math_floor_integer. subst centerX. rewrite inject_Z_plus.
    change (inject_Z 32) with 32%Q. change (inject_Z 12) with 12%Q.
    field. }
  assert (Hy : Math_floor (baseY - 26 - 3) = inject_Z (Y - 1 + off)).
  { apply Math_floor_integer. subst baseY. unfold Z.sub.
    rewrite !inject_Z_plus.
    change (inject_Z 32) with 32%Q. change (inject_Z (- (1))) with (-1)%Q.
    lra. }
  rewrite <- Hx, <- Hy.
  destruct (emits_hair_top constructor centerX baseY direction)
    as (Efront & Eback & Eside).
  assert (Hemit :
    ∀ g op, emits op g →
            ∃ w', Normal (g w) = Normal w' ∧ op ∈ emitted w w').
  { intros g op (ps & Hg & Hin). exists (g w). split; [reflexivity |].
    rewrite (emitted_appends g ps) by exact Hg. exact Hin. }
  pose proof (draws_oblivious _
                (draws_drawLegs constructor centerX baseY direction p))
    as Olegs.
  repeat case_bool_decide.
  - apply (Hemit (λ w0, drawHairBack constructor centerX baseY
                    (drawHead constructor centerX baseY direction
                       (drawBody constructor centerX baseY direction
                          (drawLegs constructor centerX baseY direction
                             p w0))))).
    apply (emits_after _ _ (drawHairBack constructor centerX baseY));
      [| exact Eback].
    apply (oblivious_comp _ (drawHead constructor centerX baseY direction));
      [| apply oblivious_drawHead].
    apply (oblivious_comp _ (drawBody constructor centerX baseY direction));
      [| apply oblivious_drawBody].
    exact Olegs.
  - apply (Hemit (λ w0, drawHairFront constructor centerX baseY
                    (drawFace constructor centerX baseY
                       (drawHead constructor centerX baseY direction
                          (drawBody constructor centerX baseY direction
                             (drawLegs constructor centerX baseY direction
                                p w0)))))).
    apply (emits_after _ _ (drawHairFront constructor centerX baseY));
      [| exact Efront].
    apply (oblivious_comp _ (drawFace constructor centerX baseY));
      [| apply oblivious_drawFace].
    apply (oblivious_comp _ (drawHead constructor centerX baseY direction));
      [| apply oblivious_drawHead].
    apply (oblivious_comp _ (drawBody constructor centerX baseY direction));
      [| apply oblivious_drawBody].
    exact Olegs.
  - apply (Hemit (λ w0, drawHairSide constructor centerX baseY direction
                    (drawFaceSide constructor centerX baseY direction
                       (drawHead constructor centerX baseY direction
                          (drawArms Math_sin Math_PI constructor centerX
                             baseY direction action frame
                             (drawBody constructor centerX baseY direction
                                (drawLegs constructor centerX baseY
                                   direction p w0))))))).
    apply (emits_after _ _
             (drawHairSide constructor centerX baseY direction));
      [| exact Eside].
    apply (oblivious_comp _
             (drawFaceSide constructor centerX baseY direction));
      [| apply oblivious_drawFaceSide].
    apply (oblivious_comp _ (drawHead constructor centerX baseY direction));
      [| apply oblivious_drawHead].
    apply (oblivious_comp _
             (drawArms Math_sin Math_PI constructor centerX baseY direction
                action frame));
      [| apply oblivious_drawArms].
    apply (oblivious_comp _ (drawBody constructor centerX baseY direction));
      [| apply oblivious_drawBody].
    exact Olegs.
Qed.

End WholeFrame.

Lemma frame_stays_in_its_box_witness :
  ∃ w',
    drawCharacter (λ _, 0%Q) 3 constructor (inject_Z 64) (inject_Z 160)
      Left Walk 1 (inject_Z (-1))
      {| canvas := {| width := 192; height := 384;
                      fillStyle := "#000000"; ops := [] |};
         randomSource := λ _, 0%Q; randomUsed := 0 |}
    = Normal w'
    ∧ Forall (inBox (64 + 8) (160 - 3) (64 + 24) (160 + 30))
        (emitted
           {| canvas := {| width := 192; height := 384;
                           fillStyle := "#000000"; ops := [] |};
              randomSource := λ _, 0%Q; randomUsed := 0 |} w').
Proof.
  apply (frame_stays_in_its_box (λ _, 0%Q) 3 64 160 (-1) Left Walk 1).
  - intros q. split; unfold Qle; simpl; lia.
  - lia.
Defined.

End FrameExtent.

(** ** The two drivers of the generator, and the ground tile *)

Section Drivers.

Import SpriteGenerator.

Variable Math_sin : Q → Q.
Variable Math_PI : Q.

Lemma allFramesCalls_spritesheetCalls :
  GameScene.allFramesCalls = spritesheetCalls constructor.
Proof. vm_compute. reflexivity. Qed.

(** X8. The scene's [generatePlayerSpritesheet] and the generator's own
    [generateSpritesheet] make the same sheet: both return, both canvases
    are 192 × 384, and the generator's canvas holds its initial
    [clearRect] followed by exactly the operations of the scene's
    canvas. *)
Theorem scene_sheet_is_generator_sheet (w1 w2 : World) :
  ∃ sheet scene,
    generateSpritesheet Math_sin Math_PI constructor w1 = Normal sheet
    ∧ GameScene.generatePlayerSpritesheet Math_sin Math_PI w2 = Normal scene
    ∧ ops (canvas sheet) = ClearRect 0 0 192 384 :: ops (canvas scene)
    ∧ width (canvas sheet) = 192 ∧ width (canvas scene) = 192
    ∧ height (canvas sheet) = 384 ∧ height (canvas scene) = 384.
Proof.
  destruct (forEach_oblivious (perform Math_sin Math_PI constructor)
              (spritesheetCalls constructor)
              (perform_oblivious Math_sin Math_PI constructor))
    as (g & [drawn Hg] & Eg).
  assert (Hsheet : ∀ w,
    generateSpritesheet Math_sin Math_PI constructor w
    = forEach (perform Math_sin Math_PI constructor)
        (spritesheetCalls constructor)
        (clearRect 0 0 192 384 (createCanvas 192 384 w))).
  { intros w. unfold generateSpritesheet, generateIdleAnimations,
      generateWalkAnimations, generateRunAnimations, spritesheetCalls.
    rewrite !forEach_app. reflexivity. }
  exists (g (clearRect 0 0 192 384 (createCanvas 192 384 w1))),
    (g (createCanvas 192 384 w2)).
  split; [rewrite Hsheet; apply Eg |].
  split.
  { unfold GameScene.generatePlayerSpritesheet, GameScene.generateAllFrames.
    rewrite allFramesCalls_spritesheetCalls. apply Eg. }
  destruct (Hg (clearRect 0 0 192 384 (createCanvas 192 384 w1)))
    as (O1 & W1 & H1 & _).
  destruct (Hg (createCanvas 192 384 w2)) as (O2 & W2 & H2 & _).
  rewrite O1, O2, W1, W2, H1, H2. simpl. auto.
Qed.

End Drivers.

Section GroundTile.

Lemma speckle_spec (n : nat) (sx sy wd ht : Q) (limit : Z) (w : World) :
  (∀ k, (0 <= randomSource w k ∧ randomSource w k < 1)%Q) →
  (0 <= sx ∧ sx + wd <= inject_Z limit ∧ 0 <= sy
   ∧ sy + ht <= inject_Z limit)%Q →
  ∃ drawn,
    ops (canvas (GameScene.speckle n sx sy wd ht w))
    = ops (canvas w) ++ drawn
    ∧ length drawn = n
    ∧ Forall (inBox 0 0 limit limit) drawn
    ∧ randomUsed (GameScene.speckle n sx sy wd ht w)
      = (randomUsed w + 2 * n)%nat
    ∧ randomSource (GameScene.speckle n sx sy wd ht w) = randomSource w
    ∧ width (canvas (GameScene.speckle n sx sy wd ht w)) = width (canvas w)
    ∧ height (canvas (GameScene.speckle n sx sy wd ht w))
      = height (canvas w).
Proof.
  intros Hrand (Hsx & Hwd & Hsy & Hht).
  revert w Hrand. induction n as [| n IH]; intros w Hrand.
  - exists []. simpl. rewrite app_nil_r. repeat split; [constructor | lia].
  - simpl.
    set (r1 := randomSource w (randomUsed w)).
    set (r2 := randomSource w (S (randomUsed w))).
    match goal with
    | |- context [GameScene.speckle n sx sy wd ht ?w1] =>
        destruct (IH w1) as (drawn & Ho & Hl & Hb & Hu & Hs & Hw & Hh);
          [exact Hrand |]
    end.
    rewrite Ho, Hu, Hs, Hw, Hh. simpl.
    eexists (_ :: drawn). rewrite <- app_assoc. simpl.
    split; [reflexivity |]. split; [rewrite Hl; reflexivity |].
    split; [| repeat split; lia].
    constructor; [| exact Hb].
    destruct (Hrand (randomUsed w)) as [A1 A2].
    destruct (Hrand (S (randomUsed w))) as [B1 B2].
    fold r1 in A1, A2. fold r2 in B1, B2.
    unfold inBox. change (inject_Z 0) with 0%Q.
    repeat split; nra.
Qed.

(** Two rounds of speckles, the second after a change of fill style. *)
Lemma speckles_twice (w1 : World) :
  (∀ k, (0 <= randomSource w1 k ∧ randomSource w1 k < 1)%Q) →
  Forall (inBox 0 0 32 32) (ops (canvas w1)) →
  let w3 :=
    GameScene.speckle 10 28 28 3 1
      (setFillStyle "#3a6c49" (GameScene.speckle 20 30 30 2 2 w1)) in
  width (canvas w3) = width (canvas w1)
  ∧ height (canvas w3) = height (canvas w1)
  ∧ length (ops (canvas w3)) = (length (ops (canvas w1)) + 30)%nat
  ∧ Forall (inBox 0 0 32 32) (ops (canvas w3))
  ∧ randomUsed w3 = (randomUsed w1 + 60)%nat.
Proof.
  intros Hrand Hbox.
  destruct (speckle_spec 20 30 30 2 2 32 w1 Hrand)
    as (d1 & O1 & L1 & B1 & U1 & S1 & W1 & H1).
  { repeat split; unfold Qle; simpl; lia. }
  generalize dependent (GameScene.speckle 20 30 30 2 2 w1). intros w2.
  intros O1 U1 S1 W1 H1.
  destruct (speckle_spec 10 28 28 3 1 32 (setFillStyle "#3a6c49" w2))
    as (d2 & O2 & L2 & B2 & U2 & S2 & W2 & H2).
  { intros k. change (randomSource (setFillStyle "#3a6c49" w2))
      with (randomSource w2). rewrite S1. apply Hrand. }
  { repeat split; unfold Qle; simpl; lia. }
  generalize dependent
    (GameScene.speckle 10 28 28 3 1 (setFillStyle "#3a6c49" w2)).
  intros w3 O2 U2 S2 W2 H2. cbv zeta.
  change (ops (canvas (setFillStyle "#3a6c49" w2)))
    with (ops (canvas w2)) in O2.
  change (randomUsed (setFillStyle "#3a6c49" w2))
    with (randomUsed w2) in U2.
  change (width (canvas (setFillStyle "#3a6c49" w2)))
    with (width (canvas w2)) in W2.
  change (height (canvas (setFillStyle "#3a6c49" w2)))
    with (height (canvas w2)) in H2.
  rewrite O2, U2, W2, H2, O1, U1, W1, H1.
  rewrite !length_app, L1, L2.
  split; [reflexivity |]. split; [reflexivity |].
  split; [lia |]. split; [| lia].
  apply Forall_app. split; [apply Forall_app; split |]; assumption.
Qed.

(** X9. Whenever [Math.random] delivers numbers in [0, 1),
    [generateGroundTiles] leaves a 32 × 32 canvas holding 31 filled
    rectangles (the ground and 30 speckles) that all lie inside the tile,
    and has consumed exactly 60 random numbers. *)
Theorem ground_tile_speckles_inside (w : World) :
  (∀ k, (0 <= randomSource w k ∧ randomSource w k < 1)%Q) →
  let tile := GameScene.generateGroundTiles w in
  width (canvas tile) = 32 ∧ height (canvas tile) = 32
  ∧ length (ops (canvas tile)) = 31%nat
  ∧ Forall (inBox 0 0 32 32) (ops (canvas tile))
  ∧ randomUsed tile = (randomUsed w + 60)%nat.
Proof.
  intros Hrand.
  apply (speckles_twice
           (setFillStyle "#5a8c69"
              (fillRect 0 0 32 32
                 (setFillStyle "#4a7c59" (createCanvas 32 32 w))))).
  - exact Hrand.
  - constructor; [| constructor].
    unfold inBox. repeat split; unfold Qle; simpl; lia.
Qed.

Lemma ground_tile_speckles_inside_witness :
  length
    (ops (canvas
            (GameScene.generateGroundTiles
               {| canvas := {| width := 0; height := 0;
                               fillStyle := "#000000"; ops := [] |};
                  randomSource := λ _, (1 # 2)%Q; randomUsed := 0 |})))
  = 31%nat.
Proof.
  apply (ground_tile_speckles_inside
           {| canvas := {| width := 0; height := 0;
                           fillStyle := "#000000"; ops := [] |};
              randomSource := λ _, (1 # 2)%Q; randomUsed := 0 |}).
  intros k. split; [unfold Qle | unfold Qlt]; simpl; lia.
Defined.

End GroundTile.

(** ** The clip table: what an update leaves alone, and how updates
    compose *)

Section ClipTableMore.

Import SpriteConfig SpriteConfigMore.

Lemma find_insert_irrelevant {A} (P : A → Prop) `{!∀ x, Decision (P x)}
    (l : list A) (i : nat) (x y : A) :
  l !! i = Some x → ¬ P x → ¬ P y →
  snd <$> list_find P (<[i:=y]> l) = snd <$> list_find P l.
Proof.
  revert i. induction l as [| z l IH]; intros i Hi Hx Hy; [discriminate |].
  destruct i as [| i]; simpl in *.
  - injection Hi as ->.
    rewrite !decide_False by assumption.
    rewrite <- !option_fmap_compose. reflexivity.
  - destruct (decide (P z)); [reflexivity |].
    rewrite <- !option_fmap_compose.
    specialize (IH i Hi Hx Hy).
    destruct (list_find P (<[i:=y]> l)) as [[? ?] |];
      destruct (list_find P l) as [[? ?] |]; simpl in *; congruence.
Qed.

Lemma find_app_irrelevant {A} (P : A → Prop) `{!∀ x, Decision (P x)}
    (l : list A) (y : A) :
  ¬ P y → snd <$> list_find P (l ++ [y]) = snd <$> list_find P l.
Proof.
  intros Hy. destruct (list_find P l) as [[i x] |] eqn:Hfind.
  - rewrite (list_find_app_l _ _ _ _ _ Hfind). reflexivity.
  - rewrite list_find_app_r by exact Hfind. simpl.
    rewrite decide_False by exact Hy. reflexivity.
Qed.

Lemma keepsKey_key (a d : string) (anim : Animation) (u : Updates) :
  keepsKey a d u → isFor a d anim → key (Object_assign anim u) = key anim.
Proof.
  unfold keepsKey, isFor, key, Object_assign. simpl.
  intros [Ha Hd] [<- <-]. rewrite Ha, Hd. reflexivity.
Qed.

Lemma isFor_key (a d : string) (anim : Animation) :
  isFor a d anim ↔ key anim = (a, d).
Proof. unfold isFor, key. split; [intros [-> ->] | intros [= -> ->]]; auto. Qed.

Lemma getAnimation_other (t : list Animation) (a d a' d' : string)
    (u : Updates) :
  keepsKey a d u → (a', d') ≠ (a, d) →
  getAnimation (updateAnimation t a d u) a' d' = getAnimation t a' d'.
Proof.
  intros Hkey Hne. unfold getAnimation, updateAnimation.
  destruct (list_find (isFor a d) t) as [[i anim] |] eqn:Hfind.
  - apply list_find_Some in Hfind as (Hi & HP & _).
    apply (find_insert_irrelevant _ _ _ anim); [exact Hi | |].
    + intros H'. apply isFor_key in H', HP. congruence.
    + intros H'. apply isFor_key in H'.
      rewrite (keepsKey_key a d) in H' by assumption.
      apply isFor_key in HP. congruence.
  - apply find_app_irrelevant.
    intros H'. apply isFor_key in H'.
    assert (Hnew : key (newAnimation a d u) = (a, d)).
    { apply isFor_key, isFor_Object_assign; [exact Hkey | split; reflexivity]. }
    congruence.
Qed.

(** X10. An update that does not rename its animation leaves every other
    animation alone: [getAnimation] for any other action and direction
    returns what it returned before, and so does [getAnimationsByAction]
    for any other action. *)
Theorem update_leaves_others_alone (t : list Animation) (a d : string)
    (u : Updates) :
  keepsKey a d u →
  (∀ a' d', (a', d') ≠ (a, d) →
            getAnimation (updateAnimation t a d u) a' d'
            = getAnimation t a' d')
  ∧ (∀ a', a' ≠ a →
           getAnimationsByAction (updateAnimation t a d u) a'
           = getAnimationsByAction t a').
Proof.
  intros Hkey. split.
  - intros a' d'. apply getAnimation_other, Hkey.
  - intros a' Hne. unfold getAnimationsByAction, updateAnimation.
    destruct (list_find (isFor a d) t) as [[i anim] |] eqn:Hfind.
    + apply list_find_Some in Hfind as (Hi & HP & _).
      pose proof (keepsKey_key a d anim u Hkey HP) as Hk.
      destruct HP as [Ha Hd].
      rewrite <- (take_drop_middle t i anim Hi) at 2.
      rewrite insert_take_drop by (eapply lookup_lt_Some, Hi).
      rewrite !filter_app, !filter_cons.
      unfold key in Hk. injection Hk as Hk1 _.
      rewrite !decide_False; [reflexivity | |]; intros E; simpl in *; congruence.
    + rewrite filter_app, filter_cons, filter_nil.
      rewrite decide_False; [apply app_nil_r |].
      destruct Hkey as [Ha _]. simpl. intros E. congruence.
Qed.

Lemma update_leaves_others_alone_witness :
  getAnimation
    (updateAnimation (animations DEFAULT_ANIMATION_CONFIG) "run" "up"
       {| u_action := None; u_direction := None; u_row := Some 3;
          u_startFrame := None; u_frameCount := None;
          u_frameRate := None |})
    "idle" "up"
  = getAnimation (animations DEFAULT_ANIMATION_CONFIG) "idle" "up".
Proof.
  apply update_leaves_others_alone.
  - split; reflexivity.
  - discriminate.
Defined.

Lemma keys_updateAnimation (t : list Animation) (a d : string)
    (u : Updates) :
  keepsKey a d u →
  keys (updateAnimation t a d u)
  = match getAnimation t a d with
    | Some _ => keys t
    | None => keys t ++ [(a, d)]
    end.
Proof.
  intros Hkey. unfold keys, getAnimation, updateAnimation.
  destruct (list_find (isFor a d) t) as [[i anim] |] eqn:Hfind; simpl.
  - apply list_find_Some in Hfind as (Hi & HP & _).
    rewrite list_fmap_insert, (keepsKey_key a d) by assumption.
    apply list_insert_id. rewrite list_lookup_fmap, Hi. reflexivity.
  - rewrite fmap_app. simpl. f_equal. f_equal.
    apply isFor_key, isFor_Object_assign; [exact Hkey | split; reflexivity].
Qed.


Lemma getAnimation_None_key (t : list Animation) (a d : string) :
  getAnimation t a d = None ↔ (a, d) ∉ keys t.
Proof.
  unfold getAnimation, keys. rewrite fmap_None, list_find_None.
  rewrite Forall_forall, list_elem_of_fmap. split.
  - intros H (x & Hk & Hx). apply (H x Hx). apply isFor_key. auto.
  - intros H x Hx HP. apply H. exists x. split; [| exact Hx].
    symmetry. apply isFor_key. exact HP.
Qed.

(** X11. The default table has one animation per action and direction,
    and so has every table reached from it by updates that do not rename
    the animation they are applied to. *)
Theorem one_animation_per_key (t : list Animation) :
  reachableKeeping t → NoDup (keys t).
Proof.
  induction 1 as [| t a d u _ IH Hkey].
  - apply (bool_decide_unpack _). vm_compute. exact I.
  - rewrite keys_updateAnimation by exact Hkey.
    destruct (getAnimation t a d) eqn:Hget; [exact IH |].
    apply NoDup_app. split; [exact IH | split; [| apply NoDup_singleton]].
    intros k Hk Hin. apply list_elem_of_singleton in Hin as ->.
    apply getAnimation_None_key in Hget. contradiction.
Qed.

Lemma one_animation_per_key_witness :
  NoDup (keys (updateAnimation (animations DEFAULT_ANIMATION_CONFIG)
                 "attack" "left"
                 {| u_action := None; u_direction := None;
                    u_row := None; u_startFrame := None;
                    u_frameCount := None; u_frameRate := Some 10 |})).
Proof.
  apply one_animation_per_key.
  apply keeping_update; [apply keeping_default | split; reflexivity].
Defined.

Lemma Object_assign_merge (anim : Animation) (u1 u2 : Updates) :
  Object_assign (Object_assign anim u1) u2 = Object_assign anim (merge u1 u2).
Proof.
  unfold Object_assign, merge. simpl.
  destruct (u_action u2), (u_direction u2), (u_row u2), (u_startFrame u2),
    (u_frameCount u2), (u_frameRate u2); reflexivity.
Qed.

(** Two updates of one action and direction are one update. *)
Lemma updateAnimation_merge (t : list Animation) (a d : string)
    (u1 u2 : Updates) :
  keepsKey a d u1 →
  updateAnimation (updateAnimation t a d u1) a d u2
  = updateAnimation t a d (merge u1 u2).
Proof.
  intros Hkey.
  destruct (list_find (isFor a d) t) as [[i anim] |] eqn:Hfind.
  - assert (Hfirst : updateAnimation t a d u1
                     = <[i:=Object_assign anim u1]> t)
      by (unfold updateAnimation; rewrite Hfind; reflexivity).
    assert (Hboth : updateAnimation t a d (merge u1 u2)
                    = <[i:=Object_assign anim (merge u1 u2)]> t)
      by (unfold updateAnimation; rewrite Hfind; reflexivity).
    rewrite Hfirst, Hboth.
    apply list_find_Some in Hfind as (Hi & HP & Hleast).
    assert (Hnew : list_find (isFor a d) (<[i:=Object_assign anim u1]> t)
                   = Some (i, Object_assign anim u1)).
    { apply list_find_Some. split; [| split].
      - apply list_lookup_insert_eq. eapply lookup_lt_Some, Hi.
      - apply isFor_Object_assign; assumption.
      - intros j y Hj Hlt.
        rewrite list_lookup_insert_ne in Hj by lia.
        eapply Hleast; eassumption. }
    unfold updateAnimation. rewrite Hnew.
    rewrite list_insert_insert_eq, Object_assign_merge. reflexivity.
  - assert (Hfirst : updateAnimation t a d u1
                     = t ++ [newAnimation a d u1])
      by (unfold updateAnimation; rewrite Hfind; reflexivity).
    assert (Hboth : updateAnimation t a d (merge u1 u2)
                    = t ++ [newAnimation a d (merge u1 u2)])
      by (unfold updateAnimation; rewrite Hfind; reflexivity).
    rewrite Hfirst, Hboth.
    unfold updateAnimation.
    rewrite list_find_app_r by exact Hfind. simpl.
    rewrite decide_True
      by (apply isFor_Object_assign; [exact Hkey | split; reflexivity]).
    simpl.
    rewrite insert_app_r_alt by lia. rewrite Nat.sub_diag. simpl.
    unfold newAnimation. rewrite Object_assign_merge. reflexivity.
Qed.

(** X12. Two updates of the same action and direction, the first of which
    does not rename the animation, amount to one update with the
    properties of both, those of the second winning; in particular
    repeating an update changes nothing more. *)
Theorem updates_compose (t : list Animation) (a d : string)
    (u1 u2 : Updates) :
  keepsKey a d u1 →
  updateAnimation (updateAnimation t a d u1) a d u2
  = updateAnimation t a d (merge u1 u2)
  ∧ updateAnimation (updateAnimation t a d u1) a d u1
    = updateAnimation t a d u1.
Proof.
  intros Hkey.
  split; [apply updateAnimation_merge, Hkey |].
  rewrite updateAnimation_merge by exact Hkey. f_equal.
  unfold merge. destruct u1 as [[?|] [?|] [?|] [?|] [?|] [?|]]; reflexivity.
Qed.

Lemma updates_compose_witness :
  updateAnimation
    (updateAnimation (animations DEFAULT_ANIMATION_CONFIG) "walk" "left"
       (SpriteEditor.onlyRow 7))
    "walk" "left" (SpriteEditor.onlyFrameRate 9)
  = updateAnimation (animations DEFAULT_ANIMATION_CONFIG) "walk" "left"
      (merge (SpriteEditor.onlyRow 7) (SpriteEditor.onlyFrameRate 9)).
Proof.
  apply updates_compose. split; reflexivity.
Defined.

End ClipTableMore.

(** ** The configuration object and the shared default *)

Section SharedDefault.

Import SpriteConfig SpriteConfigStore.

Lemma updateAll_shared (calls : list (string * string * Updates))
    (this : SpriteConfig) (b : Browser) :
  cfg_animations (config this) = DefaultArray →
  updateAll calls (this, b)
  = (this,
     {| defaultArray := updateTable calls (defaultArray b);
        savedConfig := savedConfig b;
        savedImage := savedImage b;
        quotaExceeded := quotaExceeded b |}).
Proof.
  intros Href. revert b. induction calls as [| c calls IH]; intros b.
  - destruct b; reflexivity.
  - unfold updateAll, updateTable in *. simpl. rewrite Href, IH.
    reflexivity.
Qed.

Lemma updateAll_own (calls : list (string * string * Updates))
    (this : SpriteConfig) (b : Browser) (contents : list Animation) :
  cfg_animations (config this) = OwnArray contents →
  updateAll calls (this, b)
  = ({| config :=
          {| cfg_frameWidth := cfg_frameWidth (config this);
             cfg_frameHeight := cfg_frameHeight (config this);
             cfg_animations := OwnArray (updateTable calls contents) |};
        spritesheetData := spritesheetData this |},
     b).
Proof.
  revert this contents. induction calls as [| c calls IH];
    intros this contents Href.
  - destruct this as [[fw fh ref] data]. simpl in *. subst ref. reflexivity.
  - unfold updateAll, updateTable in *. simpl. rewrite Href.
    erewrite IH by reflexivity. reflexivity.
Qed.

(** X13. When no configuration is saved, a [SpriteConfig] works on the
    array of [DEFAULT_ANIMATION_CONFIG] itself: after any sequence of
    updates the default holds the updated table, [reset()] gives that
    same updated table back, and so does every [SpriteConfig] constructed
    afterwards. *)
Theorem reset_keeps_the_updates (b : Browser)
    (calls : list (string * string * Updates)) :
  loadConfig b = None →
  let s1 := updateAll calls (constructor b, b) in
  let s2 := reset s1 in
  animationsOf s1.1 s1.2 = updateTable calls (defaultArray b)
  ∧ defaultArray s1.2 = updateTable calls (defaultArray b)
  ∧ animationsOf s2.1 s2.2 = updateTable calls (defaultArray b)
  ∧ animationsOf (constructor s2.2) s2.2
    = updateTable calls (defaultArray b).
Proof.
  intros Hload s1 s2. subst s2 s1.
  rewrite updateAll_shared
    by (unfold constructor; rewrite Hload; reflexivity).
  unfold constructor. rewrite Hload. simpl. auto.
Qed.

Lemma reset_keeps_the_updates_witness :
  getAnimation
    (reset
       (updateAll [("idle", "down", SpriteEditor.onlyRow 5)]
          (constructor (freshBrowser None None false),
           freshBrowser None None false))).1
    (reset
       (updateAll [("idle", "down", SpriteEditor.onlyRow 5)]
          (constructor (freshBrowser None None false),
           freshBrowser None None false))).2
    "idle" "down"
  = Some {| action := "idle"; direction := "down"; row := 5;
            startFrame := 0; frameCount := 4; frameRate := 4 |}.
Proof.
  unfold getAnimation.
  destruct (reset_keeps_the_updates (freshBrowser None None false)
              [("idle", "down", SpriteEditor.onlyRow 5)] eq_refl)
    as (_ & _ & Hreset & _).
  rewrite Hreset. reflexivity.
Defined.

(** X14. A [SpriteConfig] constructed from a saved configuration works on
    an array of its own: its updates never change the array of
    [DEFAULT_ANIMATION_CONFIG], and [reset()] puts it back on that
    array. *)
Theorem loaded_config_is_separate (b : Browser) (fw fh : Z)
    (saved : list Animation) (calls : list (string * string * Updates)) :
  savedConfig b = Some (JsonConfig fw fh saved) →
  let s1 := updateAll calls (constructor b, b) in
  let s2 := reset s1 in
  animationsOf s1.1 s1.2 = updateTable calls saved
  ∧ defaultArray s1.2 = defaultArray b
  ∧ animationsOf s2.1 s2.2 = defaultArray b.
Proof.
  intros Hsaved s1 s2. subst s2 s1.
  assert (Hload : loadConfig b
                  = Some {| cfg_frameWidth := fw; cfg_frameHeight := fh;
                            cfg_animations := OwnArray saved |})
    by (unfold loadConfig; rewrite Hsaved; reflexivity).
  erewrite updateAll_own
    by (unfold constructor; rewrite Hload; reflexivity).
  simpl. auto.
Qed.

Lemma loaded_config_is_separate_witness :
  defaultArray
    (updateAll [("idle", "down", SpriteEditor.onlyRow 5)]
       (constructor (freshBrowser (Some (JsonConfig 16 16 [])) None false),
        freshBrowser (Some (JsonConfig 16 16 [])) None false)).2
  = animations DEFAULT_ANIMATION_CONFIG.
Proof.
  destruct (loaded_config_is_separate
              (freshBrowser (Some (JsonConfig 16 16 [])) None false)
              16 16 [] [("idle", "down", SpriteEditor.onlyRow 5)] eq_refl)
    as (_ & Hdefault & _).
  exact Hdefault.
Defined.

(** X15. [saveConfig] of a configuration whose numbers are all integers
    stores a copy of it.  When [setItem] succeeds it returns [true] and
    leaves the configuration in memory, the shared default and the stored
    image as they are; no later update reaches the stored item, and a
    [SpriteConfig] constructed after any such updates gets the frame size
    and the table of the moment of saving.  When [setItem] throws it
    returns [false] and nothing has changed. *)
Theorem saveConfig_stores_a_snapshot (this : SpriteConfig) (b : Browser)
    (calls : list (string * string * Updates)) :
  (quotaExceeded b = false →
     let saved := saveConfig (this, b) in
     let later := updateAll calls saved.2 in
     saved.1 = true
     ∧ saved.2.1 = this
     ∧ defaultArray saved.2.2 = defaultArray b
     ∧ savedImage saved.2.2 = savedImage b
     ∧ savedConfig later.2 = savedConfig saved.2.2
     ∧ animationsOf (constructor later.2) later.2 = animationsOf this b
     ∧ cfg_frameWidth (config (constructor later.2))
       = cfg_frameWidth (config this)
     ∧ cfg_frameHeight (config (constructor later.2))
       = cfg_frameHeight (config this))
  ∧ (quotaExceeded b = true → saveConfig (this, b) = (false, (this, b))).
Proof.
  split; intros Hq; unfold saveConfig; rewrite Hq; [| reflexivity].
  simpl. destruct (cfg_animations (config this)) as [| contents] eqn:Href.
  - rewrite updateAll_shared by exact Href. simpl.
    unfold animationsOf. rewrite Href. repeat split.
  - erewrite updateAll_own by exact Href. simpl.
    unfold animationsOf. rewrite Href. repeat split.
Qed.

Lemma saveConfig_stores_a_snapshot_witness :
  animationsOf
    (constructor
       (updateAll [("idle", "down", SpriteEditor.onlyRow 5)]
          (saveConfig
             (constructor (freshBrowser None None false),
              freshBrowser None None false)).2).2)
    (updateAll [("idle", "down", SpriteEditor.onlyRow 5)]
       (saveConfig
          (constructor (freshBrowser None None false),
           freshBrowser None None false)).2).2
  = animations DEFAULT_ANIMATION_CONFIG.
Proof.
  destruct (saveConfig_stores_a_snapshot
              (constructor (freshBrowser None None false))
              (freshBrowser None None false)
              [("idle", "down", SpriteEditor.onlyRow 5)]) as [Hok _].
  destruct (Hok eq_refl) as (_ & _ & _ & _ & _ & Htable & _).
  exact Htable.
Defined.

End SharedDefault.

(** ** The editor: saving the form, and the preview *)

Section Editor.

Import SpriteConfig SpriteConfigMore SpriteEditor.

Lemma handleAnimationChange_update (t : list Animation) (i : FormInput) :
  handleAnimationChange t i
  = updateAnimation t (in_action i) (in_direction i) (updatesOf i).
Proof. unfold handleAnimationChange, updatesOf. destruct (in_class i); reflexivity. Qed.

Lemma updatesOf_keepsKey (i : FormInput) (a d : string) :
  keepsKey a d (updatesOf i).
Proof. unfold updatesOf. destruct (in_class i); split; reflexivity. Qed.

Lemma shown_after_update (i : FormInput) (anim : Animation) :
  shown (in_class i) (Object_assign anim (updatesOf i)) = in_value i.
Proof. unfold updatesOf. destruct (in_class i); reflexivity. Qed.

Lemma shown_other_class (i : FormInput) (c : InputClass) (anim : Animation) :
  c ≠ in_class i →
  shown c (Object_assign anim (updatesOf i)) = shown c anim.
Proof.
  unfold updatesOf. destruct (in_class i), c; intros H;
    try reflexivity; contradiction.
Qed.

(** X16. After the loop of [saveConfiguration] over a form that has one
    input per action, direction and class, the table holds, for every
    input, an animation of its action and direction whose row, frame
    count or frame rate (by the class of the input) is the value of the
    input. *)
Theorem save_stores_every_input (t : list Animation)
    (inputs : list FormInput) (i : FormInput) :
  NoDup (inputKey <$> inputs) → i ∈ inputs →
  ∃ anim,
    getAnimation (saveInputs t inputs) (in_action i) (in_direction i)
    = Some anim
    ∧ shown (in_class i) anim = in_value i.
Proof.
  revert i. induction inputs as [| x l IH] using rev_ind; intros i Hnd Hin.
  - apply elem_of_nil in Hin. contradiction.
  - rewrite fmap_app in Hnd. apply NoDup_app in Hnd as (Hl & Hfresh & _).
    unfold saveInputs in *. rewrite foldl_app. simpl.
    rewrite handleAnimationChange_update.
    apply elem_of_app in Hin as [Hin | Hin].
    + destruct (IH i Hl Hin) as (anim & Hget & Hshown).
      destruct (decide ((in_action i, in_direction i)
                        = (in_action x, in_direction x))) as [Heq | Hne].
      * injection Heq as Ha Hd. rewrite Ha, Hd in *.
        rewrite getAnimation_updateAnimation by apply updatesOf_keepsKey.
        rewrite Hget. eexists. split; [reflexivity |].
        rewrite shown_other_class; [exact Hshown |].
        intros Hc. apply (Hfresh (inputKey i)).
        -- apply list_elem_of_fmap. exists i. auto.
        -- simpl. apply list_elem_of_singleton.
           unfold inputKey. congruence.
      * rewrite getAnimation_other;
          [eauto | apply updatesOf_keepsKey | exact Hne].
    + apply list_elem_of_singleton in Hin as ->.
      rewrite getAnimation_updateAnimation by apply updatesOf_keepsKey.
      eexists. split; [reflexivity |].
      destruct (getAnimation _ _ _); apply shown_after_update.
Qed.

Lemma save_stores_every_input_witness :
  ∃ anim,
    getAnimation
      (saveInputs (animations DEFAULT_ANIMATION_CONFIG)
         [ {| in_action := "cast"; in_direction := "up";
              in_class := AnimRow; in_value := 13 |};
           {| in_action := "cast"; in_direction := "up";
              in_class := AnimFps; in_value := 9 |} ])
      "cast" "up" = Some anim
    ∧ row anim = 13.
Proof.
  apply (save_stores_every_input (animations DEFAULT_ANIMATION_CONFIG)
           [ {| in_action := "cast"; in_direction := "up";
                in_class := AnimRow; in_value := 13 |};
             {| in_action := "cast"; in_direction := "up";
                in_class := AnimFps; in_value := 9 |} ]
           {| in_action := "cast"; in_direction := "up";
              in_class := AnimRow; in_value := 13 |}).
  - apply (bool_decide_unpack _). vm_compute. exact I.
  - left.
Defined.









Lemma withPreviewFrame_same (this : Editor) (f : option Z) :
  previewFrame this = f → withPreviewFrame f this = this.
Proof. destruct this. simpl. intros ->. reflexivity. Qed.

(** One tick on a loaded image and a selected animation with frames. *)
Lemma renderPreviewFrame_advances (this : Editor) (anim : Animation)
    (c : Z) :
  image this ≠ None →
  getAnimation (animations (config this)) (previewAction this)
    (previewDirection this) = Some anim →
  0 < frameCount anim → 0 ≤ c →
  renderPreviewFrame (withPreviewFrame (Some c) this)
  = (withPreviewFrame (Some ((c + 1) `mod` frameCount anim)) this,
     SheetFrame
       (Some (previewSource anim (frameWidth (config this))
                (frameHeight (config this))
                ((c + 1) `mod` frameCount anim)))).
Proof.
  intros Himage Hanim Hfc Hc. unfold renderPreviewFrame. simpl.
  destruct (image this) as [img |]; [| contradiction].
  rewrite Hanim. simpl.
  rewrite bool_decide_eq_false_2 by lia.
  rewrite Z.rem_mod_nonneg by lia. reflexivity.
Qed.

Lemma previewTicks_advances (n : nat) (this : Editor) (anim : Animation)
    (c : Z) :
  image this ≠ None →
  getAnimation (animations (config this)) (previewAction this)
    (previewDirection this) = Some anim →
  0 < frameCount anim → 0 ≤ c →
  previewTicks (S n) (withPreviewFrame (Some c) this)
  = withPreviewFrame
      (Some ((c + 1 + Z.of_nat n) `mod` frameCount anim)) this.
Proof.
  intros Himage Hanim Hfc. revert c. induction n as [| n IH]; intros c Hc.
  - simpl. rewrite (renderPreviewFrame_advances this anim c) by assumption.
    simpl. rewrite Z.add_0_r. reflexivity.
  - change (previewTicks (S (S n)) (withPreviewFrame (Some c) this))
      with (previewTicks (S n)
              (renderPreviewFrame (withPreviewFrame (Some c) this)).1).
    rewrite (renderPreviewFrame_advances this anim c) by assumption.
    simpl fst.
    rewrite IH by (apply Z.mod_pos_bound; lia).
    f_equal. f_equal. rewrite Nat2Z.inj_succ.
    rewrite <- Z.add_assoc, Zplus_mod_idemp_l. f_equal. lia.
Qed.

Lemma previewTicks_idle (n : nat) (this : Editor) :
  image this = None
  ∨ getAnimation (animations (config this)) (previewAction this)
      (previewDirection this) = None →
  previewTicks n this = this.
Proof.
  intros Hidle. induction n as [| n IH]; [reflexivity |].
  simpl. unfold renderPreviewFrame.
  destruct Hidle as [Hnone | Hnone].
  - rewrite Hnone. exact IH.
  - destruct (image this); rewrite ?Hnone; exact IH.
Qed.

(** X18. The preview.  While no image is loaded, or the selected
    animation is not in the table, the ticks of the timer leave the
    editor as it is.  With an image loaded and the selected animation in
    the table with a positive frame count, from any counter that is not
    negative, n + 1 ticks change only the counter, to (counter + n + 1)
    mod frameCount; it is in [0, frameCount), and the frame the last of
    those ticks copies from the sheet is within the frames startFrame,
    ..., startFrame + frameCount − 1 of the row of the animation. *)
Theorem preview_stays_in_the_clip (this : Editor) (n : nat) :
  (image this = None
   ∨ getAnimation (animations (config this)) (previewAction this)
       (previewDirection this) = None →
   previewTicks n this = this)
  ∧ ∀ anim pf,
      image this ≠ None →
      getAnimation (animations (config this)) (previewAction this)
        (previewDirection this) = Some anim →
      0 < frameCount anim →
      previewFrame this = Some pf → 0 ≤ pf →
      0 ≤ frameWidth (config this) →
      let fw := frameWidth (config this) in
      let fh := frameHeight (config this) in
      let f := (pf + 1 + Z.of_nat n) `mod` frameCount anim in
      previewTicks (S n) this = withPreviewFrame (Some f) this
      ∧ 0 ≤ f < frameCount anim
      ∧ (renderPreviewFrame (previewTicks n this)).2
        = SheetFrame (Some (previewSource anim fw fh f))
      ∧ (previewSource anim fw fh f).2 = row anim * fh
      ∧ startFrame anim * fw ≤ (previewSource anim fw fh f).1
        ≤ (startFrame anim + frameCount anim - 1) * fw.
Proof.
  split; [apply previewTicks_idle |].
  intros anim pf Himage Hanim Hfc Hpf Hpos Hfw fw fh f.
  pose proof (withPreviewFrame_same this (Some pf) Hpf) as Hthis.
  pose proof (Z.mod_pos_bound (pf + 1 + Z.of_nat n) (frameCount anim) Hfc)
    as Hrange.
  split; [| split; [exact Hrange | split]].
  - rewrite <- Hthis at 1.
    apply previewTicks_advances; assumption.
  - destruct n as [| n].
    + simpl previewTicks. rewrite <- Hthis.
      rewrite (renderPreviewFrame_advances this anim pf) by assumption.
      simpl. subst f. rewrite Z.add_0_r. reflexivity.
    + rewrite <- Hthis.
      rewrite (previewTicks_advances n this anim pf) by assumption.
      rewrite (renderPreviewFrame_advances this anim)
        by (try assumption; apply Z.mod_pos_bound; lia).
      simpl. subst f. do 3 f_equal.
      rewrite Zplus_mod_idemp_l, Nat2Z.inj_succ. f_equal. lia.
  - unfold previewSource. simpl. split; [reflexivity |]. nia.
Qed.

Lemma preview_stays_in_the_clip_witness :
  let this :=
    withPreviewFrame (Some 2)
      (withImage "data:image/png;base64,"
         (newEditor DEFAULT_ANIMATION_CONFIG)) in
  previewFrame (previewTicks 7 this) = Some 1
  ∧ previewTicks 7 (newEditor DEFAULT_ANIMATION_CONFIG)
    = newEditor DEFAULT_ANIMATION_CONFIG.
Proof.
  intros this. split.
  - destruct (preview_stays_in_the_clip this 6) as [_ Hticks].
    destruct (Hticks
                {| action := "idle"; direction := "down"; row := 0;
                   startFrame := 0; frameCount := 4; frameRate := 4 |} 2)
      as (-> & _); (reflexivity || discriminate || lia).
  - apply (preview_stays_in_the_clip (newEditor DEFAULT_ANIMATION_CONFIG) 7).
    left. reflexivity.
Defined.

Lemma previewTicks_NaN (n : nat) (this : Editor) :
  previewFrame this = None → previewFrame (previewTicks n this) = None.
Proof.
  revert this. induction n as [| n IH]; intros this Hnan; [exact Hnan |].
  simpl. apply IH. unfold renderPreviewFrame.
  destruct (image this); [| exact Hnan].
  destruct (getAnimation _ _ _); [| exact Hnan].
  simpl. rewrite Hnan. reflexivity.
Qed.

(** X19. With an image loaded, one tick of the preview on a selected
    animation whose frame count is 0 turns the frame counter into NaN:
    the frame it asks the sheet for has no position, and the counter is
    NaN after every later tick, whatever the table has become in
    between. *)
Theorem preview_stuck_after_zero_frames (this : Editor) (anim : Animation)
    (later : list Animation) (n : nat) :
  image this ≠ None →
  getAnimation (animations (config this)) (previewAction this)
    (previewDirection this) = Some anim →
  frameCount anim = 0 →
  let stuck := (renderPreviewFrame this).1 in
  previewFrame stuck = None
  ∧ (renderPreviewFrame this).2 = SheetFrame None
  ∧ previewFrame (previewTicks n (withAnimations later stuck)) = None.
Proof.
  intros Himage Hanim Hzero stuck.
  assert (Htick : renderPreviewFrame this
                  = (withPreviewFrame None this, SheetFrame None)).
  { unfold renderPreviewFrame.
    destruct (image this); [| contradiction].
    rewrite Hanim, Hzero. simpl.
    destruct (previewFrame this); reflexivity. }
  subst stuck. rewrite Htick. simpl.
  split; [reflexivity |]. split; [reflexivity |].
  apply previewTicks_NaN. reflexivity.
Qed.

Lemma preview_stuck_after_zero_frames_witness :
  let table :=
    updateAnimation (animations DEFAULT_ANIMATION_CONFIG) "idle" "down"
      (onlyFrameCount 0) in
  let this :=
    withAnimations table
      (withImage "data:image/png;base64,"
         (newEditor DEFAULT_ANIMATION_CONFIG)) in
  previewFrame
    (previewTicks 3
       (withAnimations (animations DEFAULT_ANIMATION_CONFIG)
          (renderPreviewFrame this).1))
  = None.
Proof.
  intros table this.
  apply (preview_stuck_after_zero_frames this
           {| action := "idle"; direction := "down"; row := 0;
              startFrame := 0; frameCount := 0; frameRate := 4 |}
           (animations DEFAULT_ANIMATION_CONFIG) 3);
    (reflexivity || discriminate).
Defined.

End Editor.
